(** * Backtracking puzzles: knight's tour and river crossing

    A shallow embedding of the two search programs of the repository:

    - [Knight]: the bitboard knight's tour with Warnsdorff ordering
      ([genMoveBoard], [genList], [makeMove], [backtrack]), in the two
      variants the repository holds (they differ in the full-board test);
    - [River]: the cannibals-and-explorers river crossing
      ([State::applyMove], [State::createMoveList], [Solution::backtrack]).

    Machine integers are [Z] with their wrap-around written out: a
    [Bitboard] is a [uint64_t], an [int] is a 32-bit two's-complement
    number.  Containers are the ones the code uses: the fixed array of
    eight (square, degree) pairs is a list read and written by index, the
    path [std::deque] is a list that grows at its back, and the
    [std::set<State>] is a finite set. *)

From Stdlib Require Import ZArith Lia List Bool Ascii.
From stdpp Require Import base decidable countable list gmap sets fin_sets sorting.
From stdpp Require Import strings pretty.

Local Open Scope Z_scope.

(** ** Machine integers *)

Definition int_min : Z := - 2 ^ 31.
Definition int_max : Z := 2 ^ 31 - 1.

(** Two's-complement wrap-around of a 32-bit [int]. *)
Definition wrap_int (x : Z) : Z := (x + 2 ^ 31) mod 2 ^ 32 - 2 ^ 31.

Definition int_range (x : Z) : Prop := int_min <= x <= int_max.

Definition int_add (x y : Z) : Z := wrap_int (x + y).
Definition int_sub (x y : Z) : Z := wrap_int (x - y).

(** * The knight's tour *)

Module Knight.

(** ** Bitboards *)

(** [using Bitboard = uint64_t]. *)
Abbreviation Bitboard := Z (only parsing).

Definition FullBB : Bitboard := 0xFFFFFFFFFFFFFFFF.
Definition FileABB : Bitboard := 0x0101010101010101.

(** Truncation of a result to the 64 bits of a [uint64_t]. *)
Definition u64 (x : Z) : Bitboard := Z.land x FullBB.

Definition shl (b : Bitboard) (n : Z) : Bitboard := u64 (Z.shiftl b n).
Definition shr (b : Bitboard) (n : Z) : Bitboard := Z.shiftr b n.
Definition bnot (b : Bitboard) : Bitboard := u64 (Z.lnot b).

Definition FileBBB : Bitboard := shl FileABB 1.
Definition FileGBB : Bitboard := shl FileABB 6.
Definition FileHBB : Bitboard := shl FileABB 7.

Definition noSq : Z := 64.

Definition getBit (b : Bitboard) (sq : Z) : bool :=
  negb (Z.land b (shl 1 sq) =? 0).

Definition setBit (b : Bitboard) (sq : Z) : Bitboard :=
  Z.lor b (shl 1 sq).

Definition popBit (b : Bitboard) (sq : Z) : Bitboard :=
  Z.land b (bnot (shl 1 sq)).

(** [__builtin_ctzll]: the number of trailing zero bits.  The intrinsic
    is undefined at 0; the code only calls it under [while(attacks)]. *)
Fixpoint ctz (p : positive) : Z :=
  match p with
  | xO p' => 1 + ctz p'
  | _ => 0
  end.

Definition lsb (b : Bitboard) : Z :=
  match b with
  | Zpos p => ctz p
  | _ => 0
  end.

(** [popLsb] returns the square and the board with that bit cleared. *)
Definition popLsb (b : Bitboard) : Z * Bitboard :=
  let sq := lsb b in (sq, Z.land b (bnot (shl 1 sq))).

(** [__builtin_popcountll]: the number of set bits. *)
Fixpoint popcount (p : positive) : Z :=
  match p with
  | xH => 1
  | xO p' => popcount p'
  | xI p' => 1 + popcount p'
  end.

Definition bitCount (b : Bitboard) : Z :=
  match b with
  | Zpos p => popcount p
  | _ => 0
  end.

Definition coordsToSq (row column : Z) : Z := row * 8 + column.
Definition getRow (sq : Z) : Z := sq / 8.
Definition getColumn (sq : Z) : Z := sq mod 8.

(** ** The search object *)

Record Backtrack := mkBacktrack {
  visitedSqs : Bitboard;
  stackSq : list Z;
  fullTour : bool;
  totalMoves : Z;
  startingSq : Z
}.

Definition init : Backtrack :=
  {| visitedSqs := 0; stackSq := []; fullTour := false;
     totalMoves := 0; startingSq := noSq |}.

(** The knight attacks of [sq] before the visited squares are masked
    out: eight shifts, each guarded by the files it would wrap over. *)
Definition attacksOf (sq : Z) : Bitboard :=
  let bb := shl 1 sq in
  let attacks := 0 in
  let attacks := Z.lor attacks (shl (Z.land (bnot FileABB) bb) 15) in
  let attacks := Z.lor attacks (shl (Z.land (bnot FileHBB) bb) 17) in
  let attacks := Z.lor attacks (shl (Z.land (bnot (Z.lor FileABB FileBBB)) bb) 6) in
  let attacks := Z.lor attacks (shl (Z.land (bnot (Z.lor FileGBB FileHBB)) bb) 10) in
  let attacks := Z.lor attacks (shr (Z.land (bnot FileABB) bb) 17) in
  let attacks := Z.lor attacks (shr (Z.land (bnot FileHBB) bb) 15) in
  let attacks := Z.lor attacks (shr (Z.land (bnot (Z.lor FileABB FileBBB)) bb) 10) in
  let attacks := Z.lor attacks (shr (Z.land (bnot (Z.lor FileGBB FileHBB)) bb) 6) in
  attacks.

(** [genMoveBoard] reads the member [visitedSqs]; it is the first
    argument here. *)
Definition genMoveBoard (visited : Bitboard) (sq : Z) : Bitboard :=
  Z.land (attacksOf sq) (bnot visited).

(** ** The ranked move list *)

(** [using MoveList = std::array<std::pair<int,int>, 8>]. *)
Abbreviation MoveList := (list (Z * Z)) (only parsing).

Definition sentinel : Z * Z := (noSq, 9).

(** The inner [while] of [genList]: [k] is [i + 1], so that the loop
    stops at [k = 0] where the code stops at [i = -1].  Entries are
    shifted one slot up while their degree is greater than the new one. *)
Fixpoint shiftUp (moves : MoveList) (newSq : Z * Z) (k : nat) : MoveList :=
  match k with
  | O => <[O := newSq]> moves
  | S i =>
      if (moves !!! i).2 >? newSq.2
      then shiftUp (<[S i := moves !!! i]> moves) newSq i
      else <[S i := newSq]> moves
  end.

(** The outer [while(attacks)] of [genList].  Every round clears one bit
    of a 64-bit board, so 64 rounds of [fuel] are never used up. *)
Fixpoint genLoop (fuel : nat) (visited attacks : Bitboard)
    (moves : MoveList) (count : nat) : MoveList :=
  match fuel with
  | O => moves
  | S fuel' =>
      if attacks =? 0 then moves
      else
        let '(sq, attacks') := popLsb attacks in
        let newSq := (sq, bitCount (genMoveBoard visited sq)) in
        genLoop fuel' visited attacks' (shiftUp moves newSq count) (S count)
  end.

(** A square has at most eight knight destinations, so [count] stays
    below 8 and every index above is within the array. *)
Definition genList (visited : Bitboard) (sq : Z) : MoveList :=
  genLoop 64 visited (genMoveBoard visited sq) (replicate 8 sentinel) O.

(** ** The recursion *)

(** What a call can come to: it returns with the object in some state,
    the model runs out of recursion depth, or the candidate loop reads
    [moves[8]], one past the end of the array. *)
Inductive outcome :=
  | Done (st : Backtrack)
  | OutOfFuel
  | PastTheEnd.

Definition enter (sq : Z) (st : Backtrack) : Backtrack :=
  {| visitedSqs := setBit (visitedSqs st) sq;
     stackSq := stackSq st ++ [sq];
     fullTour := fullTour st;
     totalMoves := int_add (totalMoves st) 1;
     startingSq := startingSq st |}.

Definition leave (sq : Z) (st : Backtrack) : Backtrack :=
  {| visitedSqs := popBit (visitedSqs st) sq;
     stackSq := removelast (stackSq st);
     fullTour := fullTour st;
     totalMoves := totalMoves st;
     startingSq := startingSq st |}.

Definition solved (st : Backtrack) : Backtrack :=
  {| visitedSqs := visitedSqs st;
     stackSq := stackSq st;
     fullTour := true;
     totalMoves := totalMoves st;
     startingSq := startingSq st |}.

(** The candidate loop [while(moves[i].first != noSq)]: [ms] is the part
    of the array from index [i] on. *)
Fixpoint tryMoves (call : Z -> Backtrack -> outcome) (sq : Z)
    (ms : MoveList) (st : Backtrack) : outcome :=
  match ms with
  | [] => PastTheEnd
  | m :: ms' =>
      if m.1 =? noSq then Done (leave sq st)
      else
        match call m.1 st with
        | Done st' => if fullTour st' then Done st' else tryMoves call sq ms' st'
        | bad => bad
        end
  end.

(** The body of [makeMove], with [call] for the recursive call.  [full]
    is the full-board test, the one place where the two variants of the
    program differ. *)
Definition makeMoveBody (full : Backtrack → bool)
    (call : Z → Backtrack → outcome) (sq : Z) (st : Backtrack) : outcome :=
  let st := enter sq st in
  if full st then Done (solved st)
  else
    let moves := genList (visitedSqs st) sq in
    if (moves !!! O).1 =? noSq then Done (leave sq st)
    else tryMoves call sq moves st.

(** The list [moves] that [makeMove(sq)] builds when it is called in
    state [st]: [genList] runs after [setBit(visitedSqs, sq)]. *)
Definition movesOf (st : Backtrack) (sq : Z) : list (Z * Z) :=
  genList (visitedSqs (enter sq st)) sq.

Fixpoint makeMoveWith (full : Backtrack → bool) (fuel : nat) (sq : Z)
    (st : Backtrack) : outcome :=
  match fuel with
  | O => OutOfFuel
  | S fuel' => makeMoveBody full (makeMoveWith full fuel') sq st
  end.

Definition fullBoard (st : Backtrack) : bool := visitedSqs st =? FullBB.

Definition fullBoardOrTour (st : Backtrack) : bool :=
  (visitedSqs st =? FullBB) || fullTour st.

(** [makeMove] of src/unnamed/part_000 and of src/knights_tour/main.cpp. *)
Definition makeMove : nat → Z → Backtrack → outcome :=
  makeMoveWith fullBoard.

Definition makeMove_main : nat → Z → Backtrack → outcome :=
  makeMoveWith fullBoardOrTour.

Definition setStart (sq : Z) (st : Backtrack) : Backtrack :=
  {| visitedSqs := visitedSqs st; stackSq := stackSq st;
     fullTour := fullTour st; totalMoves := totalMoves st;
     startingSq := sq |}.

Definition backtrack (fuel : nat) (sq : Z) (st : Backtrack) : outcome :=
  makeMove fuel sq (setStart sq st).

Definition backtrack_main (fuel : nat) (sq : Z) (st : Backtrack) : outcome :=
  makeMove_main fuel sq (setStart sq st).

(** ** What the claims speak of *)

Definition onBoard (sq : Z) : Prop := 0 <= sq < 64.

(** The 64 squares, a1 first. *)
Definition squares : list Z := seqZ 0 64.

(** A legal knight move on the 8x8 board, by rows and columns: one step
    along one axis and two along the other. *)
Definition knightMove (a b : Z) : bool :=
  bool_decide (onBoard a) && bool_decide (onBoard b) &&
  let dr := Z.abs (getRow a - getRow b) in
  let dc := Z.abs (getColumn a - getColumn b) in
  ((dr =? 1) && (dc =? 2)) || ((dr =? 2) && (dc =? 1)).

(** The squares a knight's move away from [d]. *)
Definition knightMoves (d : Z) : list Z :=
  filter (λ t, knightMove d t = true) squares.

(** The legal knight moves from [d] on a board: the squares a knight's
    move away that are not visited; their number is the onward degree. *)
Definition legalMoves (visited : Bitboard) (d : Z) : list Z :=
  filter (λ t, Z.testbit visited t = false) (knightMoves d).

(** The set bits of a board, lowest first. *)
Definition bitsOf (b : Bitboard) : list Z :=
  filter (λ t, Z.testbit b t = true) squares.

(** A value of a [uint64_t]. *)
Definition isU64 (b : Z) : Prop := 0 <= b < 2 ^ 64.

Definition degree (visited : Bitboard) (d : Z) : Z :=
  Z.of_nat (length (legalMoves visited d)).

(** The order of the ranked list: by degree, then by square index. *)
Definition ranked (a b : Z * Z) : Prop :=
  a.2 < b.2 ∨ (a.2 = b.2 ∧ a.1 < b.1).

(** The entry [genList] makes for a destination, and the insertions it
    performs for a list of destinations taken in turn. *)
Definition entry (visited : Bitboard) (d : Z) : Z * Z :=
  (d, bitCount (genMoveBoard visited d)).

Fixpoint rank (visited : Bitboard) (bits : list Z) (moves : MoveList)
    (count : nat) : MoveList :=
  match bits with
  | [] => moves
  | sq :: bits' => rank visited bits' (shiftUp moves (entry visited sq) count) (S count)
  end.

(** A path of knight moves. *)
Fixpoint isPath (l : list Z) : Prop :=
  match l with
  | a :: (b :: _) as l' => knightMove a b = true ∧ isPath l'
  | _ => True
  end.

(** What holds of the board and the path stack throughout the search:
    the visited squares are those on the stack, none twice, and the
    stack is a path of knight moves. *)
Definition tourInv (visited : Bitboard) (stack : list Z) : Prop :=
  isU64 visited ∧
  (∀ t, Z.testbit visited t = true ↔ t ∈ stack) ∧
  NoDup stack ∧
  isPath stack.

(** A position with no way on: the knight stands on c2 after b3 and d4,
    and a1, next, has both its neighbours visited. *)
Definition corner : Backtrack :=
  {| visitedSqs := 2 ^ 17 + 2 ^ 27 + 2 ^ 10; stackSq := [17; 27; 10];
     fullTour := false; totalMoves := 3; startingSq := 17 |}.

(** The tour the search finds from a1. *)
Definition a1Tour : list Z :=
  [0; 10; 4; 14; 31; 46; 63; 53; 47; 62; 52; 58; 48; 33; 16; 1; 11; 5; 15;
   21; 6; 23; 38; 55; 61; 51; 57; 40; 25; 8; 2; 17; 32; 42; 59; 49; 34; 24;
   9; 3; 18; 12; 27; 44; 29; 19; 36; 26; 41; 56; 50; 35; 20; 30; 13; 7; 22;
   28; 43; 37; 54; 39; 45; 60].

Definition a1Result : Backtrack :=
  {| visitedSqs := FullBB; stackSq := a1Tour; fullTour := true;
     totalMoves := 64; startingSq := 0 |}.

(** ** Input and output *)

(** The check [main] makes on the word it has read: two characters, a
    file letter a..h and a rank digit 1..8; then [col], [row] and the
    square index.  A word that fails the check is asked for again. *)
Definition parseSquare (stringSq : string) : option Z :=
  match stringSq with
  | String c0 (String c1 EmptyString) =>
      let x0 := Z.of_N (Ascii.N_of_ascii c0) in
      let x1 := Z.of_N (Ascii.N_of_ascii c1) in
      if (97 <=? x0) && (x0 <=? 104) && (49 <=? x1) && (x1 <=? 56)
      then
        let col := x0 - 97 in
        let row := x1 - 49 in
        Some (coordsToSq row col)
      else None
  | _ => None
  end.

(** What [sqToString] writes to [std::cout]; [/] and [%] of C++ round
    towards zero. *)
Definition sqToString (sq : Z) : string :=
  if sq =? noSq then "NA"%string
  else
    let c := Ascii.ascii_of_N (Z.to_N (97 + Z.rem sq 8)) in
    String c (pretty (Z.quot sq 8 + 1) +:+ " ").

End Knight.

(** * The river crossing *)

Module River.

Definition SHORE_SIZE : Z := 6.
Definition BOAT_CAPACITY : Z := 2.
Definition MAX_MOVES : Z := 5.
Definition TOTAL_CANNIBALS : Z := 3.
Definition TOTAL_EXPLORERS : Z := 3.

(** [enum Shore { LEFT, RIGHT }], stored in an [int]. *)
Definition LEFT : Z := 0.
Definition RIGHT : Z := 1.

Record Move := mkMove {
  cannibalCount_ : Z;
  explorerCount_ : Z
}.

Record State := mkState {
  leftCannibals_ : Z;
  leftExplorers_ : Z;
  rightCannibals_ : Z;
  rightExplorers_ : Z;
  boatSide_ : Z
}.

(** A default-constructed [State]. *)
Definition initialState : State :=
  {| leftCannibals_ := TOTAL_CANNIBALS; leftExplorers_ := TOTAL_EXPLORERS;
     rightCannibals_ := 0; rightExplorers_ := 0; boatSide_ := LEFT |}.

Definition getBoatSide (s : State) : Z := boatSide_ s.

Definition isSuccess (s : State) : bool :=
  (rightCannibals_ s =? TOTAL_CANNIBALS) && (rightExplorers_ s =? TOTAL_EXPLORERS).

Definition isValid (s : State) : bool :=
  negb (((leftCannibals_ s >? leftExplorers_ s) && negb (leftExplorers_ s =? 0))
        || ((rightCannibals_ s >? rightExplorers_ s) && negb (rightExplorers_ s =? 0))).

Definition applyMove (move : Move) (s : State) : State :=
  if boatSide_ s =? RIGHT then
    {| leftExplorers_ := int_add (leftExplorers_ s) (explorerCount_ move);
       leftCannibals_ := int_add (leftCannibals_ s) (cannibalCount_ move);
       rightExplorers_ := int_sub (rightExplorers_ s) (explorerCount_ move);
       rightCannibals_ := int_sub (rightCannibals_ s) (cannibalCount_ move);
       boatSide_ := Z.lxor (boatSide_ s) 1 |}
  else
    {| leftExplorers_ := int_sub (leftExplorers_ s) (explorerCount_ move);
       leftCannibals_ := int_sub (leftCannibals_ s) (cannibalCount_ move);
       rightExplorers_ := int_add (rightExplorers_ s) (explorerCount_ move);
       rightCannibals_ := int_add (rightCannibals_ s) (cannibalCount_ move);
       boatSide_ := Z.lxor (boatSide_ s) 1 |}.

Definition undoMove (move : Move) (s : State) : State := applyMove move s.

(** The two nested [for] loops; [c] and [e] stay within 0..[BOAT_CAPACITY],
    so the loop arithmetic cannot wrap. *)
Definition createMoveList (s : State) : list Move :=
  let cannibals := if boatSide_ s =? LEFT then leftCannibals_ s else rightCannibals_ s in
  let explorers := if boatSide_ s =? LEFT then leftExplorers_ s else rightExplorers_ s in
  c ← seqZ 0 (Z.min BOAT_CAPACITY cannibals + 1);
  e ← seqZ 0 (Z.min (BOAT_CAPACITY - c) explorers + 1);
  if c + e >? 0 then [mkMove c e] else [].

(** [operator<] compares the five fields as a tuple, so two states are
    equivalent in the [std::set] exactly when they are equal. *)
Definition State_to_tuple (s : State) : Z * Z * Z * Z * Z :=
  (leftCannibals_ s, leftExplorers_ s, rightCannibals_ s, rightExplorers_ s, boatSide_ s).

Definition State_of_tuple (t : Z * Z * Z * Z * Z) : State :=
  let '(lc, le, rc, re, b) := t in mkState lc le rc re b.

#[global] Instance State_eq_dec : EqDecision State.
Proof. solve_decision. Defined.

#[global] Instance Move_eq_dec : EqDecision Move.
Proof. solve_decision. Defined.

#[global] Instance State_countable : Countable State :=
  inj_countable' State_to_tuple State_of_tuple
    ltac:(intros []; reflexivity).

Record Solution := mkSolution {
  currentState_ : State;
  previousMoves : list Move;
  visitedStates : gset State;
  solutionMoves : list Move
}.

(** A default-constructed [Solution]. *)
Definition newSolution : Solution :=
  {| currentState_ := initialState; previousMoves := [];
     visitedStates := ∅; solutionMoves := [] |}.

(** [visitedStates.emplace(currentState_)]: the set afterwards and
    whether the insertion took place. *)
Definition emplace (s : State) (visited : gset State) : gset State * bool :=
  if decide (s ∈ visited) then (visited, false) else ({[s]} ∪ visited, true).

(** The first two statements of the loop body. *)
Definition descend (move : Move) (sol : Solution) : Solution :=
  {| currentState_ := applyMove move (currentState_ sol);
     previousMoves := previousMoves sol ++ [move];
     visitedStates := visitedStates sol;
     solutionMoves := solutionMoves sol |}.

(** The last two statements of the loop body. *)
Definition ascend (move : Move) (sol : Solution) : Solution :=
  {| currentState_ := undoMove move (currentState_ sol);
     previousMoves := removelast (previousMoves sol);
     visitedStates := visitedStates sol;
     solutionMoves := solutionMoves sol |}.

(** The range-based [for] over the move list, which is built once from
    the state at loop entry. *)
Fixpoint forMoves (call : Solution -> option Solution) (ms : list Move)
    (sol : Solution) : option Solution :=
  match ms with
  | [] => Some sol
  | move :: ms' =>
      match call (descend move sol) with
      | Some sol' => forMoves call ms' (ascend move sol')
      | None => None
      end
  end.

(** The body of [Solution::backtrack], with [call] for the recursive
    call. *)
Definition backtrackBody (call : Solution → option Solution)
    (sol : Solution) : option Solution :=
  if negb (isValid (currentState_ sol)) then Some sol
  else
    let '(visited, inserted) := emplace (currentState_ sol) (visitedStates sol) in
    if negb inserted then Some sol
    else
      let sol := {| currentState_ := currentState_ sol;
                    previousMoves := previousMoves sol;
                    visitedStates := visited;
                    solutionMoves := solutionMoves sol |} in
      if isSuccess (currentState_ sol) then
        if bool_decide (solutionMoves sol = [])
           || bool_decide (length (previousMoves sol) < length (solutionMoves sol))%nat
        then Some {| currentState_ := currentState_ sol;
                     previousMoves := previousMoves sol;
                     visitedStates := visitedStates sol;
                     solutionMoves := previousMoves sol |}
        else Some sol
      else forMoves call (createMoveList (currentState_ sol)) sol.

(** [Solution::backtrack]; [None] when the recursion is deeper than
    [fuel]. *)
Fixpoint backtrack (fuel : nat) (sol : Solution) : option Solution :=
  match fuel with
  | O => None
  | S fuel' => backtrackBody (backtrack fuel') sol
  end.

(** The re-simulation of [printOutput]: the states the printed moves go
    through, the initial one first. *)
Fixpoint trajectory (s : State) (ms : list Move) : list State :=
  match ms with
  | [] => [s]
  | m :: ms' => s :: trajectory (applyMove m s) ms'
  end.

Definition replay (s : State) (ms : list Move) : State :=
  fold_left (fun s m => applyMove m s) ms s.

(** ** What the claims speak of *)

(** The states a [State] object can hold: four [int] counts and a boat
    side that is [LEFT] or [RIGHT] (the member is private, starts at
    [LEFT] and is only ever flipped by [applyMove]). *)
Definition State_ok (s : State) : Prop :=
  int_range (leftCannibals_ s) ∧ int_range (leftExplorers_ s) ∧
  int_range (rightCannibals_ s) ∧ int_range (rightExplorers_ s) ∧
  (boatSide_ s = LEFT ∨ boatSide_ s = RIGHT).

(** The safety predicate of one shore and of a state. *)
Definition shore_safe (cannibals explorers : Z) : Prop :=
  explorers = 0 ∨ cannibals <= explorers.

Definition safe (s : State) : Prop :=
  shore_safe (leftCannibals_ s) (leftExplorers_ s) ∧
  shore_safe (rightCannibals_ s) (rightExplorers_ s).

(** A legal move takes between one and [BOAT_CAPACITY] people, none of
    them more than the boat's shore holds. *)
Definition legalMove (s : State) (m : Move) : Prop :=
  let cannibals := if boatSide_ s =? LEFT then leftCannibals_ s else rightCannibals_ s in
  let explorers := if boatSide_ s =? LEFT then leftExplorers_ s else rightExplorers_ s in
  0 <= cannibalCount_ m <= cannibals ∧ 0 <= explorerCount_ m <= explorers ∧
  1 <= cannibalCount_ m + explorerCount_ m <= BOAT_CAPACITY.

(** A sequence of legal moves from [s], each leading to a valid state. *)
Fixpoint legalPath (s : State) (ms : list Move) : Prop :=
  match ms with
  | [] => True
  | m :: ms' =>
      legalMove s m ∧ isValid (applyMove m s) = true ∧ legalPath (applyMove m s) ms'
  end.

(** The states [backtrack] can be entered in: the initial one and what
    a move of [createMoveList] makes of such a state. *)
Inductive reachable : State → Prop :=
  | reachable_initial : reachable initialState
  | reachable_move s m :
      reachable s → m ∈ createMoveList s → reachable (applyMove m s).

(** Shore counts within the fixed totals. *)
Definition withinTotals (s : State) : Prop :=
  0 <= leftCannibals_ s <= TOTAL_CANNIBALS ∧
  rightCannibals_ s = TOTAL_CANNIBALS - leftCannibals_ s ∧
  0 <= leftExplorers_ s <= TOTAL_EXPLORERS ∧
  rightExplorers_ s = TOTAL_EXPLORERS - leftExplorers_ s ∧
  0 <= boatSide_ s <= 1.

(** The finite state space: every state within the totals. *)
Definition universeList : list State :=
  lc ← seqZ 0 (TOTAL_CANNIBALS + 1);
  le ← seqZ 0 (TOTAL_EXPLORERS + 1);
  b ← seqZ 0 2;
  [mkState lc le (TOTAL_CANNIBALS - lc) (TOTAL_EXPLORERS - le) b].

Definition universe : gset State := list_to_set universeList.

(** The states not yet visited: what the recursion uses up. *)
Definition unvisited (visited : gset State) : nat := size (universe ∖ visited).

(** What a returning call leaves behind: state and move history as they
    were, and no visited state forgotten. *)
Definition restores (sol sol' : Solution) : Prop :=
  currentState_ sol' = currentState_ sol ∧
  previousMoves sol' = previousMoves sol ∧
  visitedStates sol ⊆ visitedStates sol'.

(** The valid successors of a state, and of every state of a list. *)
Definition successors (s : State) : list State :=
  filter (λ t, isValid t = true) ((λ m, applyMove m s) <$> createMoveList s).

Fixpoint layer (k : nat) (l : list State) : list State :=
  match k with
  | O => l
  | S k' => layer k' (l ≫= successors)
  end.

(** The object [main] ends up with, when 33 levels of recursion are
    enough. *)
Definition solver : Solution := default newSolution (backtrack 33 newSolution).

(** ** More of the program *)

(** [operator<]: the five members compared as a tuple, the first
    difference deciding. *)
Definition State_lt (a b : State) : bool :=
  (leftCannibals_ a <? leftCannibals_ b) ||
  (leftCannibals_ a =? leftCannibals_ b) &&
  ((leftExplorers_ a <? leftExplorers_ b) ||
   (leftExplorers_ a =? leftExplorers_ b) &&
   ((rightCannibals_ a <? rightCannibals_ b) ||
    (rightCannibals_ a =? rightCannibals_ b) &&
    ((rightExplorers_ a <? rightExplorers_ b) ||
     (rightExplorers_ a =? rightExplorers_ b) &&
     (boatSide_ a <? boatSide_ b)))).

(** What [printShore] writes: a C for every cannibal and an E for every
    explorer of the shore, then dashes up to [SHORE_SIZE]. *)
Definition printShore (shore : Z) (s : State) : list ascii :=
  let cannibals := if shore =? LEFT then leftCannibals_ s else rightCannibals_ s in
  let explorers := if shore =? LEFT then leftExplorers_ s else rightExplorers_ s in
  replicate (Z.to_nat cannibals) "C"%char ++
  replicate (Z.to_nat explorers) "E"%char ++
  replicate (Z.to_nat (int_sub SHORE_SIZE (int_add cannibals explorers))) "-"%char.

(** The order in which [createMoveList] lists the moves: by cannibals,
    then by explorers. *)
Definition moveOrder (a b : Move) : Prop :=
  cannibalCount_ a < cannibalCount_ b ∨
  (cannibalCount_ a = cannibalCount_ b ∧ explorerCount_ a < explorerCount_ b).

(** A genuine solution: legal moves through valid states from the
    initial state to a success state. *)
Definition genuine (ms : list Move) : Prop :=
  legalPath initialState ms ∧ isSuccess (replay initialState ms) = true.

(** What holds when [backtrack] is entered: the move history leads from
    the initial state to the current one, and it is a legal path as
    soon as the current state is valid (which the call checks first). *)
Definition history (sol : Solution) : Prop :=
  replay initialState (previousMoves sol) = currentState_ sol ∧
  (isValid (currentState_ sol) = true →
   legalPath initialState (previousMoves sol)).

(** How a call may change [solutionMoves]: not at all, or to a genuine
    solution that extends the move history of the call and is shorter
    than the one held before, if there was one. *)
Definition improves (sol sol' : Solution) : Prop :=
  solutionMoves sol' = solutionMoves sol ∨
  (genuine (solutionMoves sol') ∧
   (solutionMoves sol = [] ∨
    (length (solutionMoves sol') < length (solutionMoves sol))%nat) ∧
   ∃ ext, solutionMoves sol' = previousMoves sol ++ ext).

(** The states a call has added to the visited set are expanded: every
    one that is not a success state has all its valid successors in the
    set. *)
Definition expanded (visited visited' : gset State) : Prop :=
  ∀ s, s ∈ visited' → s ∉ visited → isSuccess s = false →
       ∀ t, t ∈ successors s → t ∈ visited'.

(** The states a call has added to the visited set are valid and within
    the totals. *)
Definition sound (visited visited' : gset State) : Prop :=
  ∀ s, s ∈ visited' → s ∈ visited ∨ (isValid s = true ∧ withinTotals s).

End River.


(** * Facts about machine integers *)

Lemma wrap_int_id x : int_range x → wrap_int x = x.
Proof.
  unfold int_range, int_min, int_max, wrap_int. intros H.
  rewrite Z.mod_small; lia.
Qed.

Lemma wrap_int_range x : int_range (wrap_int x).
Proof.
  unfold int_range, int_min, int_max, wrap_int.
  pose proof (Z.mod_pos_bound (x + 2 ^ 31) (2 ^ 32)). lia.
Qed.

Lemma wrap_int_add_sub x y : int_range x → int_sub (int_add x y) y = x.
Proof.
  intros H. unfold int_sub, int_add, wrap_int.
  replace ((x + y + 2 ^ 31) mod 2 ^ 32 - 2 ^ 31 - y + 2 ^ 31)
    with ((x + y + 2 ^ 31) mod 2 ^ 32 - y) by lia.
  rewrite Zminus_mod_idemp_l.
  replace (x + y + 2 ^ 31 - y) with (x + 2 ^ 31) by lia.
  apply (wrap_int_id x H).
Qed.

Lemma wrap_int_sub_add x y : int_range x → int_add (int_sub x y) y = x.
Proof.
  intros H. unfold int_sub, int_add, wrap_int.
  replace ((x - y + 2 ^ 31) mod 2 ^ 32 - 2 ^ 31 + y + 2 ^ 31)
    with ((x - y + 2 ^ 31) mod 2 ^ 32 + y) by lia.
  rewrite Zplus_mod_idemp_l.
  replace (x - y + 2 ^ 31 + y) with (x + 2 ^ 31) by lia.
  apply (wrap_int_id x H).
Qed.

(** * Facts about the river crossing *)

Module RiverFacts.
Import River.

Lemma State_ok_initial : State_ok initialState.
Proof.
  unfold State_ok, int_range. repeat split; try (by vm_compute). by left.
Qed.

Lemma State_ok_applyMove m s : State_ok s → State_ok (applyMove m s).
Proof.
  intros (_ & _ & _ & _ & Hb). unfold applyMove.
  destruct Hb as [-> | ->]; cbn; unfold State_ok; cbn;
    repeat split; try apply wrap_int_range; auto.
Qed.

Lemma applyMove_twice m s : State_ok s → applyMove m (applyMove m s) = s.
Proof.
  destruct s as [lc le rc re b]. intros (Hlc & Hle & Hrc & Hre & Hb). cbn in *.
  destruct Hb as [-> | ->]; unfold applyMove; cbn;
    rewrite ?wrap_int_add_sub, ?wrap_int_sub_add by assumption; reflexivity.
Qed.

(** C6: for every state a [State] object can hold and every move,
    [applyMove] applied twice gives the state back, all five members
    alike; so [undoMove] after [applyMove] restores the prior state. *)
Theorem applyMove_self_inverse (s : State) (m : Move) :
  State_ok s →
  applyMove m (applyMove m s) = s ∧ undoMove m (applyMove m s) = s.
Proof.
  intros H. unfold undoMove. split; apply applyMove_twice, H.
Qed.

Lemma applyMove_self_inverse_witness :
  State_ok initialState ∧
  applyMove (mkMove 1 1) (applyMove (mkMove 1 1) initialState) = initialState ∧
  undoMove (mkMove 1 1) (applyMove (mkMove 1 1) initialState) = initialState.
Proof.
  split; [exact State_ok_initial |].
  apply (applyMove_self_inverse initialState (mkMove 1 1)), State_ok_initial.
Defined.

(** ** The move list *)

Lemma createMoveList_spec s m : m ∈ createMoveList s ↔ legalMove s m.
Proof.
  unfold createMoveList, legalMove, BOAT_CAPACITY.
  set (cannibals := if boatSide_ s =? LEFT then _ else _).
  set (explorers := if boatSide_ s =? LEFT then _ else _).
  rewrite list_elem_of_bind. split.
  - intros (c & Hm & Hc). apply list_elem_of_bind in Hm as (e & Hm & He).
    apply elem_of_seqZ in Hc, He.
    destruct (c + e >? 0) eqn:E; [| by apply elem_of_nil in Hm].
    apply list_elem_of_singleton in Hm as ->. cbn. lia.
  - destruct m as [c e]; cbn. intros (Hc & He & Hs).
    exists c. split; [| apply elem_of_seqZ; lia].
    apply list_elem_of_bind. exists e. split; [| apply elem_of_seqZ; lia].
    destruct (c + e >? 0) eqn:E; [by apply list_elem_of_singleton | lia].
Qed.

(** ** The state space *)

Lemma withinTotals_universe s : withinTotals s ↔ s ∈ universe.
Proof.
  unfold universe, universeList, withinTotals, TOTAL_CANNIBALS, TOTAL_EXPLORERS.
  rewrite elem_of_list_to_set, list_elem_of_bind. split.
  - destruct s as [lc le rc re b]; cbn. intros (Hlc & -> & Hle & -> & Hb).
    exists lc. split; [| apply elem_of_seqZ; lia].
    apply list_elem_of_bind. exists le. split; [| apply elem_of_seqZ; lia].
    apply list_elem_of_bind. exists b. split; [| apply elem_of_seqZ; lia].
    by apply list_elem_of_singleton.
  - intros (lc & H & Hlc). apply list_elem_of_bind in H as (le & H & Hle).
    apply list_elem_of_bind in H as (b & H & Hb).
    apply list_elem_of_singleton in H as ->.
    apply elem_of_seqZ in Hlc, Hle, Hb. cbn. lia.
Qed.

Lemma withinTotals_ok s : withinTotals s → State_ok s.
Proof.
  unfold withinTotals, State_ok, int_range, int_min, int_max,
    TOTAL_CANNIBALS, TOTAL_EXPLORERS, LEFT, RIGHT.
  intros (? & ? & ? & ? & ?). repeat split; lia.
Qed.

Lemma withinTotals_initial : withinTotals initialState.
Proof. apply withinTotals_universe. by vm_compute. Qed.

Lemma small_int_range x : -4 <= x <= 4 → int_range x.
Proof. unfold int_range, int_min, int_max. lia. Qed.

Lemma withinTotals_applyMove s m :
  withinTotals s → m ∈ createMoveList s → withinTotals (applyMove m s).
Proof.
  rewrite createMoveList_spec.
  destruct s as [lc le rc re b], m as [c e].
  unfold withinTotals, legalMove, applyMove, int_add, int_sub,
    TOTAL_CANNIBALS, TOTAL_EXPLORERS, BOAT_CAPACITY, LEFT, RIGHT; cbn.
  intros (Hlc & -> & Hle & -> & Hb) H.
  assert (b = 0 ∨ b = 1) as [-> | ->] by lia; cbn in *;
    rewrite !wrap_int_id by (apply small_int_range; lia);
    [change (Z.lxor 0 1) with 1 | change (Z.lxor 1 1) with 0]; lia.
Qed.

Lemma reachable_withinTotals s : reachable s → withinTotals s.
Proof.
  induction 1 as [| s m _ IH Hm];
    [apply withinTotals_initial | by apply withinTotals_applyMove].
Qed.

Lemma unvisited_insert s (V : gset State) :
  s ∈ universe → s ∉ V → (unvisited ({[s]} ∪ V) < unvisited V)%nat.
Proof.
  intros Hs HV. unfold unvisited. apply subset_size. split.
  - intros x. rewrite !elem_of_difference, not_elem_of_union.
    intros (Hx & _ & Hx'). by split.
  - intros H. specialize (H s).
    rewrite !elem_of_difference, not_elem_of_union, elem_of_singleton in H.
    destruct H as (_ & Hne & _); by try split.
Qed.

Lemma unvisited_mono (V V' : gset State) :
  V ⊆ V' → (unvisited V' ≤ unvisited V)%nat.
Proof.
  intros HV. unfold unvisited. apply subseteq_size.
  intros x. rewrite !elem_of_difference. intros [Hx Hx']. split; [done |].
  intros Hin. by apply Hx', HV.
Qed.

Lemma unvisited_bound (V : gset State) : (unvisited V ≤ 32)%nat.
Proof.
  unfold unvisited. change 32%nat with (size universe).
  apply subseteq_size. intros x. rewrite elem_of_difference. by intros [Hx _].
Qed.

(** ** Termination *)

Lemma ascend_descend m sol sol' :
  State_ok (currentState_ sol) → restores (descend m sol) sol' →
  restores sol (ascend m sol').
Proof.
  intros Hok (Hc & Hp & Hv). unfold restores, ascend, descend in *; cbn in *.
  rewrite Hc, Hp. unfold undoMove. rewrite applyMove_twice by assumption.
  rewrite removelast_last. done.
Qed.

Lemma restores_trans a b c : restores a b → restores b c → restores a c.
Proof.
  intros (? & ? & ?) (? & ? & ?). unfold restores.
  repeat split; [congruence | congruence | by etrans].
Qed.

Section Loop.
Variable call : Solution → option Solution.
Variable n : nat.
Hypothesis call_total : ∀ sol,
  withinTotals (currentState_ sol) → (unvisited (visitedStates sol) ≤ n)%nat →
  ∃ sol', call sol = Some sol' ∧ restores sol sol'.

Lemma forMoves_total ms : ∀ sol,
  withinTotals (currentState_ sol) →
  (∀ m, m ∈ ms → m ∈ createMoveList (currentState_ sol)) →
  (unvisited (visitedStates sol) ≤ n)%nat →
  ∃ sol', forMoves call ms sol = Some sol' ∧ restores sol sol'.
Proof.
  induction ms as [| m ms IH]; intros sol Hin Hms Hn; cbn.
  - exists sol. split; [done |]. by unfold restores.
  - destruct (call_total (descend m sol)) as (sol1 & -> & Hr1).
    + cbn. apply withinTotals_applyMove; [done |]. apply Hms, elem_of_cons. by left.
    + done.
    + assert (Hr : restores sol (ascend m sol1))
        by (apply ascend_descend; [by apply withinTotals_ok | done]).
      destruct (IH (ascend m sol1)) as (sol2 & -> & Hr2).
      * destruct Hr as (-> & _ & _). done.
      * destruct Hr as (-> & _ & _). intros m' Hm'. apply Hms, elem_of_cons. by right.
      * destruct Hr as (_ & _ & Hv). pose proof (unvisited_mono _ _ Hv). lia.
      * exists sol2. split; [done |]. by eapply restores_trans.
Qed.
End Loop.

Lemma backtrack_total n : ∀ sol,
  withinTotals (currentState_ sol) → (unvisited (visitedStates sol) ≤ n)%nat →
  ∃ sol', backtrack (S n) sol = Some sol' ∧ restores sol sol' ∧
    (isValid (currentState_ sol) = true → currentState_ sol ∈ visitedStates sol').
Proof.
  induction n as [| n IH]; intros sol Hin Hn;
    change (backtrack (S ?k) sol) with (backtrackBody (backtrack k) sol);
    unfold backtrackBody, emplace.
  all: destruct (isValid (currentState_ sol)) eqn:Hvalid; cbn [negb];
    [| exists sol; by unfold restores].
  all: destruct (decide (currentState_ sol ∈ visitedStates sol)) as [Hseen | Hnew];
    cbn [negb]; [exists sol; by unfold restores |].
  all: pose proof (unvisited_insert _ _ (proj1 (withinTotals_universe _) Hin) Hnew) as Hlt.
  { lia. }
  cbn [currentState_ previousMoves visitedStates solutionMoves].
  set (visited := {[currentState_ sol]} ∪ visitedStates sol) in *.
  assert (Hsub : visitedStates sol ⊆ visited) by (apply union_subseteq_r).
  assert (Hmem : currentState_ sol ∈ visited)
    by (apply elem_of_union; left; by apply elem_of_singleton).
  destruct (isSuccess (currentState_ sol)).
  { destruct (_ || _); eexists; (split; [reflexivity |]); by unfold restores. }
  destruct (forMoves_total (backtrack (S n)) n) with
    (ms := createMoveList (currentState_ sol))
    (sol := {| currentState_ := currentState_ sol; previousMoves := previousMoves sol;
               visitedStates := visited; solutionMoves := solutionMoves sol |})
    as (sol' & -> & Hc & Hp & Hv); cbn; try done.
  - intros s Hs Hs'. destruct (IH s Hs Hs') as (s' & ? & ? & _). eauto.
  - lia.
  - exists sol'. unfold restores. cbn in *. repeat split; try done.
    + by etrans.
    + intros _. by apply Hv.
Qed.

(** ** More fuel changes nothing *)

Lemma forMoves_mono (call call' : Solution → option Solution) :
  (∀ sol r, call sol = Some r → call' sol = Some r) →
  ∀ ms sol r, forMoves call ms sol = Some r → forMoves call' ms sol = Some r.
Proof.
  intros Hcall. induction ms as [| m ms IH]; intros sol r; cbn; [done |].
  destruct (call (descend m sol)) as [sol1 |] eqn:E; [| done].
  rewrite (Hcall _ _ E). apply IH.
Qed.

Lemma backtrack_mono_S fuel : ∀ sol r,
  backtrack fuel sol = Some r → backtrack (S fuel) sol = Some r.
Proof.
  induction fuel as [| fuel IH]; intros sol r; [done |].
  change (backtrack (S ?k) sol) with (backtrackBody (backtrack k) sol).
  unfold backtrackBody.
  destruct (negb (isValid _)); [done |].
  destruct (emplace _ _) as [visited inserted].
  destruct (negb inserted); [done |]. cbn.
  destruct (isSuccess _); [done |].
  by apply forMoves_mono.
Qed.

Lemma backtrack_mono fuel fuel' sol r :
  (fuel ≤ fuel')%nat → backtrack fuel sol = Some r → backtrack fuel' sol = Some r.
Proof.
  induction 1 as [| fuel' _ IH]; [done |].
  intros H. by apply backtrack_mono_S, IH.
Qed.

Lemma backtrack_deterministic fuel fuel' sol r r' :
  backtrack fuel sol = Some r → backtrack fuel' sol = Some r' → r = r'.
Proof.
  intros H H'.
  apply (backtrack_mono _ (fuel `max` fuel')%nat) in H; [| lia].
  apply (backtrack_mono _ (fuel `max` fuel')%nat) in H'; [| lia].
  congruence.
Qed.

(** C9: [backtrack] returns from every state it can be entered in,
    whatever the visited set and the move history: such a state keeps
    its shore counts within the totals, a recursion depth of one more
    than the number of unvisited states of the finite state space (at
    most 33) is enough, and a call that is not pruned leaves the
    visited set strictly larger. *)
Theorem backtrack_terminates (sol : Solution) :
  reachable (currentState_ sol) →
  withinTotals (currentState_ sol) ∧
  (S (unvisited (visitedStates sol)) ≤ 33)%nat ∧
  ∃ sol', backtrack (S (unvisited (visitedStates sol))) sol = Some sol' ∧
    currentState_ sol' = currentState_ sol ∧
    previousMoves sol' = previousMoves sol ∧
    visitedStates sol ⊆ visitedStates sol' ∧
    (isValid (currentState_ sol) = true →
     currentState_ sol ∉ visitedStates sol →
     visitedStates sol ⊂ visitedStates sol').
Proof.
  intros Hreach. pose proof (reachable_withinTotals _ Hreach) as Hin.
  split; [done |]. split; [pose proof (unvisited_bound (visitedStates sol)); lia |].
  destruct (backtrack_total (unvisited (visitedStates sol)) sol Hin)
    as (sol' & Hrun & (Hc & Hp & Hv) & Hgrow); [lia |].
  exists sol'. split; [done |]. split; [done |]. split; [done |]. split; [done |].
  intros Hvalid Hnew. split; [done |].
  intros Hsub. apply Hnew, Hsub, Hgrow, Hvalid.
Qed.

Lemma backtrack_terminates_witness :
  withinTotals initialState ∧
  ∃ sol', backtrack 33 newSolution = Some sol' ∧ currentState_ sol' = initialState.
Proof.
  destruct (backtrack_terminates newSolution reachable_initial)
    as (Hin & _ & sol' & Hrun & Hc & _).
  split; [exact Hin |]. exists sol'. split; [exact Hrun | exact Hc].
Defined.

(** ** The solution found *)

Lemma solver_run : backtrack 33 newSolution = Some solver.
Proof. by vm_compute. Qed.

Lemma solver_moves :
  solutionMoves solver =
  [mkMove 1 1; mkMove 0 1; mkMove 2 0; mkMove 1 0; mkMove 0 2; mkMove 1 1;
   mkMove 0 2; mkMove 1 0; mkMove 2 0; mkMove 0 1; mkMove 1 1].
Proof. by vm_compute. Qed.

Lemma backtrack_result fuel sol :
  backtrack fuel newSolution = Some sol → sol = solver.
Proof. intros H. exact (backtrack_deterministic _ _ _ _ _ H solver_run). Qed.

Lemma isValid_safe s : isValid s = true ↔ safe s.
Proof.
  unfold isValid, safe, shore_safe.
  rewrite negb_true_iff, orb_false_iff, !andb_false_iff, !negb_false_iff.
  rewrite !Z.eqb_eq, !Z.gtb_ltb, !Z.ltb_ge. tauto.
Qed.

(** C8: every state of the trajectory that replays [solutionMoves] from
    the initial state, the initial and the final one included, is safe:
    on each shore the cannibals do not outnumber the explorers unless
    there is no explorer there. *)
Theorem solution_trajectory_safe (fuel : nat) (sol : Solution) :
  backtrack fuel newSolution = Some sol →
  Forall safe (trajectory initialState (solutionMoves sol)).
Proof.
  intros H. rewrite (backtrack_result _ _ H), solver_moves.
  set (t := trajectory _ _). vm_compute in t. subst t.
  repeat (apply Forall_cons; split; [unfold safe, shore_safe; cbn; lia |]).
  apply Forall_nil. done.
Qed.

Lemma solution_trajectory_safe_witness :
  Forall safe (trajectory initialState (solutionMoves solver)).
Proof. apply (solution_trajectory_safe 33 solver). vm_compute. reflexivity. Defined.

(** ** No shorter solution *)

Lemma successors_spec s m :
  legalMove s m → isValid (applyMove m s) = true → applyMove m s ∈ successors s.
Proof.
  intros Hm Hv. unfold successors. apply list_elem_of_filter. split; [done |].
  apply list_elem_of_fmap. exists m. split; [done |]. by apply createMoveList_spec.
Qed.

Lemma legalPath_layer ms : ∀ s l,
  s ∈ l → legalPath s ms → replay s ms ∈ layer (length ms) l.
Proof.
  induction ms as [| m ms IH]; intros s l Hs Hpath; cbn in *; [done |].
  destruct Hpath as (Hm & Hv & Hpath). apply IH; [| done].
  apply list_elem_of_bind. exists s. split; [| done]. by apply successors_spec.
Qed.

Lemma layers_checked :
  forallb (λ k, forallb (λ s, negb (isSuccess s)) (layer k [initialState]))
    (seq 0 11) = true.
Proof. by vm_compute. Qed.

Lemma no_short_solution ms :
  legalPath initialState ms → isSuccess (replay initialState ms) = true →
  (11 ≤ length ms)%nat.
Proof.
  intros Hpath Hgoal.
  destruct (decide (length ms < 11)%nat) as [Hlt |]; [exfalso | lia].
  pose proof layers_checked as Hall. rewrite forallb_forall in Hall.
  specialize (Hall (length ms)). rewrite in_seq in Hall.
  specialize (Hall ltac:(lia)). rewrite forallb_forall in Hall.
  assert (Hin : replay initialState ms ∈ layer (length ms) [initialState])
    by (apply legalPath_layer; [apply list_elem_of_singleton |]; done).
  apply list_elem_of_In, Hall in Hin. rewrite Hgoal in Hin. done.
Qed.

(** C1: when [backtrack] has returned on a fresh [Solution],
    [solutionMoves] has exactly 11 moves, they are legal moves through
    valid states only, replaying them from the initial state ends with
    3 cannibals and 3 explorers on the right shore, and no sequence of
    legal moves through valid states that reaches such a state is
    shorter. *)
Theorem backtrack_finds_shortest (fuel : nat) (sol : Solution) :
  backtrack fuel newSolution = Some sol →
  length (solutionMoves sol) = 11%nat ∧
  legalPath initialState (solutionMoves sol) ∧
  rightCannibals_ (replay initialState (solutionMoves sol)) = TOTAL_CANNIBALS ∧
  rightExplorers_ (replay initialState (solutionMoves sol)) = TOTAL_EXPLORERS ∧
  ∀ ms, legalPath initialState ms →
        isSuccess (replay initialState ms) = true →
        (length (solutionMoves sol) ≤ length ms)%nat.
Proof.
  intros H. rewrite (backtrack_result _ _ H), solver_moves.
  split; [done |]. split; [| split; [by vm_compute | split; [by vm_compute |]]].
  - cbn [legalPath]. repeat split; by vm_compute.
  - apply no_short_solution.
Qed.

Lemma backtrack_finds_shortest_witness :
  length (solutionMoves solver) = 11%nat ∧
  legalPath initialState (solutionMoves solver) ∧
  rightCannibals_ (replay initialState (solutionMoves solver)) = TOTAL_CANNIBALS ∧
  rightExplorers_ (replay initialState (solutionMoves solver)) = TOTAL_EXPLORERS ∧
  ∀ ms, legalPath initialState ms →
        isSuccess (replay initialState ms) = true →
        (length (solutionMoves solver) ≤ length ms)%nat.
Proof. apply (backtrack_finds_shortest 33 solver). vm_compute. reflexivity. Defined.

End RiverFacts.

(** * Facts about the knight's tour *)

Module KnightFacts.
Import Knight.

(** ** Bits *)

Lemma FullBB_ones : FullBB = Z.ones 64.
Proof. reflexivity. Qed.

Lemma u64_mod x : u64 x = x mod 2 ^ 64.
Proof. unfold u64. rewrite FullBB_ones. apply Z.land_ones. lia. Qed.

Lemma u64_isU64 x : isU64 (u64 x).
Proof. rewrite u64_mod. apply Z.mod_pos_bound. lia. Qed.

Lemma testbit_u64 x t :
  Z.testbit (u64 x) t = Z.testbit x t && bool_decide (onBoard t).
Proof.
  unfold u64, onBoard. rewrite Z.land_spec, FullBB_ones, Z.testbit_ones by lia.
  f_equal. destruct (bool_decide_reflect (0 <= t < 64)); lia.
Qed.

Lemma testbit_isU64 b t : isU64 b → Z.testbit b t = true → onBoard t.
Proof.
  intros Hb Ht. rewrite <- (Z.mod_small b (2 ^ 64)), <- u64_mod in Ht by exact Hb.
  rewrite testbit_u64 in Ht. apply andb_true_iff in Ht as [_ Ht].
  by apply bool_decide_eq_true in Ht.
Qed.

Lemma testbit_bnot b t :
  Z.testbit (bnot b) t = negb (Z.testbit b t) && bool_decide (onBoard t).
Proof.
  unfold bnot. rewrite testbit_u64.
  destruct (bool_decide_reflect (onBoard t)) as [Ht | Ht]; [| by rewrite !andb_false_r].
  rewrite Z.lnot_spec; [done | unfold onBoard in Ht; lia].
Qed.

Lemma shl_one sq : onBoard sq → shl 1 sq = 2 ^ sq.
Proof.
  unfold onBoard. intros Hsq. unfold shl. rewrite u64_mod, Z.shiftl_1_l.
  apply Z.mod_small. split; [lia |]. apply Z.pow_lt_mono_r; lia.
Qed.

Lemma testbit_shl_one sq t :
  onBoard sq → Z.testbit (shl 1 sq) t = bool_decide (t = sq).
Proof.
  intros Hsq. rewrite shl_one by done. unfold onBoard in Hsq.
  rewrite Z.pow2_bits_eqb by lia.
  destruct (bool_decide_reflect (t = sq)); lia.
Qed.

Lemma testbit_setBit b sq t :
  onBoard sq → Z.testbit (setBit b sq) t = Z.testbit b t || bool_decide (t = sq).
Proof. intros Hsq. unfold setBit. by rewrite Z.lor_spec, testbit_shl_one. Qed.

Lemma testbit_popBit b sq t :
  onBoard sq → isU64 b →
  Z.testbit (popBit b sq) t = Z.testbit b t && negb (bool_decide (t = sq)).
Proof.
  intros Hsq Hb. unfold popBit.
  rewrite Z.land_spec, testbit_bnot, testbit_shl_one by done.
  destruct (Z.testbit b t) eqn:Ht; [| done].
  rewrite (bool_decide_eq_true_2 _ (testbit_isU64 _ _ Hb Ht)). by rewrite andb_true_r.
Qed.

Lemma isU64_setBit b sq : onBoard sq → isU64 b → isU64 (setBit b sq).
Proof.
  intros Hsq Hb. unfold setBit. rewrite shl_one by done.
  unfold isU64, onBoard in *. split; [apply Z.lor_nonneg; lia |].
  destruct (Z.eq_dec (Z.lor b (2 ^ sq)) 0) as [-> | Hne]; [lia |].
  apply Z.log2_lt_pow2; [pose proof (proj2 (Z.lor_nonneg b (2 ^ sq))); lia |].
  rewrite Z.log2_lor by lia. rewrite Z.log2_pow2 by lia.
  destruct (Z.eq_dec b 0) as [-> | Hb0]; [cbn; lia |].
  assert (Z.log2 b < 64) by (apply Z.log2_lt_pow2; lia). lia.
Qed.

Lemma isU64_land_l a b : isU64 a → 0 <= b → isU64 (Z.land a b).
Proof.
  intros Ha Hb. unfold isU64 in *. split; [apply Z.land_nonneg; lia |].
  destruct (Z.eq_dec (Z.land a b) 0) as [-> | Hne]; [lia |].
  assert (0 <= Z.land a b) by (apply Z.land_nonneg; lia).
  apply Z.log2_lt_pow2; [lia |].
  pose proof (Z.log2_land a b ltac:(lia) Hb).
  destruct (Z.eq_dec a 0) as [-> | Ha0]; [by rewrite Z.land_0_l in Hne |].
  assert (Z.log2 a < 64) by (apply Z.log2_lt_pow2; lia). lia.
Qed.

Lemma isU64_popBit b sq : isU64 b → isU64 (popBit b sq).
Proof.
  intros Hb. apply isU64_land_l; [done |]. apply (u64_isU64 (Z.lnot _)).
Qed.

Lemma popBit_setBit b sq :
  onBoard sq → isU64 b → Z.testbit b sq = false → popBit (setBit b sq) sq = b.
Proof.
  intros Hsq Hb Hbit. apply Z.bits_inj'. intros t _.
  rewrite testbit_popBit, testbit_setBit by (try apply isU64_setBit; done).
  destruct (bool_decide_reflect (t = sq)) as [-> | _].
  - by rewrite Hbit.
  - by rewrite orb_false_r, andb_true_r.
Qed.

(** ** Counting and scanning bits *)

Lemma ctz_spec p :
  0 <= ctz p ∧ Z.testbit (Zpos p) (ctz p) = true ∧
  ∀ t, 0 <= t < ctz p → Z.testbit (Zpos p) t = false.
Proof.
  induction p as [p _ | p (Hnn & Hbit & Hlow) |]; cbn [ctz].
  - split; [done |]. split; [done |]. intros t Ht; lia.
  - split; [lia |]. rewrite Pos2Z.inj_xO. split.
    + replace (1 + ctz p) with (Z.succ (ctz p)) by lia.
      by rewrite Z.testbit_even_succ.
    + intros t Ht. destruct (Z.eq_dec t 0) as [-> | Hne]; [apply Z.testbit_even_0 |].
      replace t with (Z.succ (t - 1)) by lia.
      rewrite Z.testbit_even_succ by lia. apply Hlow. lia.
  - split; [done |]. split; [done |]. intros t Ht; lia.
Qed.

Lemma lsb_spec b :
  0 < b →
  0 <= lsb b ∧ Z.testbit b (lsb b) = true ∧
  ∀ t, 0 <= t < lsb b → Z.testbit b t = false.
Proof. destruct b as [| p | p]; [lia | intros _; apply ctz_spec | lia]. Qed.

Lemma lsb_onBoard b : isU64 b → b ≠ 0 → onBoard (lsb b).
Proof.
  intros Hb Hne. destruct (lsb_spec b) as (_ & Hbit & _); [unfold isU64 in Hb; lia |].
  by eapply testbit_isU64.
Qed.

Lemma filter_ext_in {A} (P Q : A → Prop) `{∀ x, Decision (P x)} `{∀ x, Decision (Q x)}
    (l : list A) :
  (∀ x, x ∈ l → P x ↔ Q x) → filter P l = filter Q l.
Proof.
  induction l as [| a l IH]; intros Hext; [done |].
  rewrite !filter_cons.
  rewrite IH by (intros x Hx; apply Hext, elem_of_cons; by right).
  apply decide_ext, Hext, elem_of_cons. by left.
Qed.

Lemma filter_none {A} (P : A → Prop) `{∀ x, Decision (P x)} (l : list A) :
  (∀ x, x ∈ l → ¬ P x) → filter P l = [].
Proof.
  induction l as [| a l IH]; intros Hnone; [done |].
  rewrite filter_cons_False by (apply Hnone, elem_of_cons; by left).
  apply IH. intros x Hx. apply Hnone, elem_of_cons. by right.
Qed.

Lemma bitCount_div2 b :
  0 <= b → bitCount b = Z.b2z (Z.testbit b 0) + bitCount (Z.div2 b).
Proof.
  destruct b as [| p | p]; [done | | lia]. intros _.
  destruct p as [p | p |]; cbn; [lia | lia | done].
Qed.

(** The population count is the number of set bits below [n], for a
    number with no bit set at or above [n]. *)
Lemma bitCount_below (n : nat) : ∀ k b,
  0 <= b < 2 ^ Z.of_nat n →
  bitCount b =
  Z.of_nat (length (filter (λ t, Z.testbit b (t - k) = true) (seqZ k (Z.of_nat n)))).
Proof.
  induction n as [| n IH]; intros k b Hb.
  - assert (b = 0) as -> by (cbn in Hb; lia). done.
  - rewrite seqZ_cons by lia. rewrite filter_cons, Z.sub_diag.
    replace (Z.pred (Z.of_nat (S n))) with (Z.of_nat n) by lia.
    rewrite (filter_ext_in _ (λ t, Z.testbit (Z.div2 b) (t - Z.succ k) = true)).
    2:{ intros t Ht. apply elem_of_seqZ in Ht.
        rewrite Z.div2_spec, Z.shiftr_spec by lia.
        by replace (t - Z.succ k + 1) with (t - k) by lia. }
    rewrite bitCount_div2 by lia.
    rewrite (IH (Z.succ k) (Z.div2 b)).
    2:{ rewrite Z.div2_div. split; [apply Z.div_pos; lia |].
        apply Z.div_lt_upper_bound; [lia |].
        replace (2 ^ Z.of_nat (S n)) with (2 * 2 ^ Z.of_nat n) in Hb; [lia |].
        rewrite Nat2Z.inj_succ, Z.pow_succ_r; lia. }
    destruct (Z.testbit b 0); cbn; [| done].
    destruct (decide (true = true)); [| done]. cbn [length]. lia.
Qed.

Lemma bitCount_bitsOf b : isU64 b → bitCount b = Z.of_nat (length (bitsOf b)).
Proof.
  intros Hb. rewrite (bitCount_below 64 0 b Hb). change (Z.of_nat 64) with 64.
  unfold bitsOf, squares.
  rewrite (list_filter_iff (λ t, Z.testbit b (t - 0) = true)
             (λ t, Z.testbit b t = true)); [done |].
  intros t. by rewrite Z.sub_0_r.
Qed.

(** Popping the lowest bit takes the first of the set bits. *)
Lemma bitsOf_popLsb b :
  isU64 b → b ≠ 0 → bitsOf b = lsb b :: bitsOf (popLsb b).2.
Proof.
  intros Hb Hne. pose proof (lsb_onBoard b Hb Hne) as Hsq.
  destruct (lsb_spec b) as (_ & Hbit & Hlow); [unfold isU64 in Hb; lia |].
  cbn [popLsb snd]. change (Z.land b (bnot (shl 1 (lsb b)))) with (popBit b (lsb b)).
  set (sq := lsb b) in *. unfold bitsOf, squares. unfold onBoard in Hsq.
  replace 64 with (sq + (1 + (63 - sq))) by lia.
  rewrite !seqZ_app by lia. rewrite (seqZ_cons (0 + sq) 1) by lia.
  rewrite (seqZ_nil _ (Z.pred 1)) by lia. rewrite !filter_app. cbn [app].
  rewrite !filter_cons.
  assert (Hpre : ∀ c, (∀ t, 0 <= t < sq → Z.testbit c t = false) →
            filter (λ t, Z.testbit c t = true) (seqZ 0 sq) = []).
  { intros c Hc. apply filter_none. intros t Ht. apply elem_of_seqZ in Ht.
    rewrite Hc by lia. done. }
  rewrite (Hpre b Hlow).
  rewrite (Hpre (popBit b sq)).
  2:{ intros t Ht. rewrite testbit_popBit by done. by rewrite Hlow. }
  rewrite Z.add_0_l. rewrite decide_True by done.
  rewrite decide_False.
  2:{ rewrite testbit_popBit by done. rewrite bool_decide_eq_true_2 by done.
      by rewrite andb_false_r. }
  cbn [app]. f_equal. apply filter_ext_in. intros t Ht. apply elem_of_seqZ in Ht.
  rewrite testbit_popBit by done. rewrite bool_decide_eq_false_2 by lia.
  by rewrite andb_true_r.
Qed.

(** ** The attack boards *)

Lemma onBoard_squares sq : onBoard sq ↔ sq ∈ squares.
Proof. unfold onBoard, squares. rewrite elem_of_seqZ. lia. Qed.

Lemma attacks_table :
  Forall (λ sq, Forall (λ t, Z.testbit (attacksOf sq) t = knightMove sq t) squares)
    squares.
Proof. apply (bool_decide_unpack _). by vm_compute. Qed.

Lemma knightMoves_table :
  Forall (λ sq, (length (knightMoves sq) ≤ 8)%nat) squares.
Proof. apply (bool_decide_unpack _). by vm_compute. Qed.

Lemma knightMove_onBoard a b : knightMove a b = true → onBoard a ∧ onBoard b.
Proof.
  unfold knightMove. intros H.
  apply andb_true_iff in H as [H _]. apply andb_true_iff in H as [Ha Hb].
  split; by eapply bool_decide_eq_true.
Qed.

Lemma testbit_attacksOf sq t :
  onBoard sq → onBoard t → Z.testbit (attacksOf sq) t = knightMove sq t.
Proof.
  rewrite !onBoard_squares. intros Hsq Ht.
  pose proof attacks_table as H. rewrite Forall_forall in H.
  specialize (H sq Hsq). rewrite Forall_forall in H. by apply H.
Qed.

Lemma testbit_genMoveBoard v sq t :
  onBoard sq →
  Z.testbit (genMoveBoard v sq) t = knightMove sq t && negb (Z.testbit v t).
Proof.
  intros Hsq. unfold genMoveBoard. rewrite Z.land_spec, testbit_bnot.
  destruct (bool_decide_reflect (onBoard t)) as [Ht | Ht].
  - by rewrite testbit_attacksOf, andb_true_r.
  - rewrite andb_false_r, andb_false_r.
    destruct (knightMove sq t) eqn:E; [| done].
    by apply knightMove_onBoard in E as [_ ?].
Qed.

Lemma isU64_genMoveBoard v sq : isU64 (genMoveBoard v sq).
Proof.
  unfold genMoveBoard, bnot, u64. rewrite Z.land_assoc. apply (u64_isU64 (Z.land _ _)).
Qed.

Lemma bitsOf_genMoveBoard v sq :
  onBoard sq → bitsOf (genMoveBoard v sq) = legalMoves v sq.
Proof.
  intros Hsq. unfold bitsOf, legalMoves, knightMoves. rewrite list_filter_filter.
  apply list_filter_iff. intros t. rewrite testbit_genMoveBoard by done.
  rewrite andb_true_iff, negb_true_iff. tauto.
Qed.

Lemma bitCount_genMoveBoard v d :
  onBoard d → bitCount (genMoveBoard v d) = degree v d.
Proof.
  intros Hd. rewrite bitCount_bitsOf by apply isU64_genMoveBoard.
  by rewrite bitsOf_genMoveBoard.
Qed.

Lemma legalMoves_spec v sq t :
  t ∈ legalMoves v sq ↔ knightMove sq t = true ∧ Z.testbit v t = false.
Proof.
  unfold legalMoves, knightMoves. rewrite !list_elem_of_filter.
  split; [tauto |]. intros [Hk Hv]. repeat split; try done.
  apply onBoard_squares. by apply knightMove_onBoard in Hk as [_ ?].
Qed.

Lemma legalMoves_length v sq : onBoard sq → (length (legalMoves v sq) ≤ 8)%nat.
Proof.
  intros Hsq. unfold legalMoves. etrans; [apply length_filter |].
  pose proof knightMoves_table as H. rewrite Forall_forall in H.
  by apply H, onBoard_squares.
Qed.

(** ** The scan of the attack board *)

Lemma bitsOf_zero : bitsOf 0 = [].
Proof. apply filter_none. intros t _. by rewrite Z.testbit_0_l. Qed.

Lemma genLoop_rank v fuel : ∀ attacks moves count,
  isU64 attacks → (length (bitsOf attacks) ≤ fuel)%nat →
  genLoop fuel v attacks moves count = rank v (bitsOf attacks) moves count.
Proof.
  induction fuel as [| fuel IH]; intros attacks moves count Hu Hlen; cbn [genLoop].
  - destruct (bitsOf attacks); [done | cbn in Hlen; lia].
  - destruct (Z.eqb_spec attacks 0) as [-> | Hne]; [by rewrite bitsOf_zero |].
    pose proof (bitsOf_popLsb attacks Hu Hne) as Hbits.
    destruct (popLsb attacks) as [sq attacks'] eqn:Hpop.
    assert (sq = lsb attacks) as -> by (by injection Hpop).
    assert (attacks' = popBit attacks (lsb attacks)) as -> by (by injection Hpop).
    cbn [snd] in Hbits. change (Z.land attacks (bnot (shl 1 (lsb attacks))))
      with (popBit attacks (lsb attacks)) in Hbits.
    rewrite Hbits in Hlen |- *. cbn [rank]. cbn [length] in Hlen.
    apply IH; [by apply isU64_popBit | lia].
Qed.

Lemma bitsOf_length b : (length (bitsOf b) ≤ 64)%nat.
Proof.
  unfold bitsOf. etrans; [apply length_filter |]. unfold squares.
  rewrite length_seqZ. lia.
Qed.

Lemma genList_rank v sq :
  onBoard sq → genList v sq = rank v (legalMoves v sq) (replicate 8 sentinel) 0.
Proof.
  intros Hsq. unfold genList.
  rewrite genLoop_rank by (apply isU64_genMoveBoard || apply bitsOf_length).
  by rewrite bitsOf_genMoveBoard.
Qed.

(** ** The insertion *)

(** One insertion: the entries of greater degree at the end of the
    filled part move one slot up, over the free slot, and the new entry
    goes in front of them. *)
Lemma shiftUp_spec (x : Z * Z) (pre : MoveList) : ∀ hole post,
  ∃ front back,
    pre = front ++ back ∧
    Forall (λ y, x.2 < y.2) back ∧
    (∀ y, last front = Some y → y.2 <= x.2) ∧
    shiftUp (pre ++ hole :: post) x (length pre) = front ++ x :: back ++ post.
Proof.
  induction pre as [| y pre IH] using rev_ind; intros hole post.
  - exists [], []. repeat split; [constructor | done].
  - rewrite length_app. cbn [length]. rewrite Nat.add_1_r. cbn [shiftUp].
    rewrite <- app_assoc. cbn [app].
    assert (Hget : (pre ++ y :: hole :: post) !!! length pre = y)
      by (by apply list_lookup_total_middle).
    assert (Hput : ∀ z, <[S (length pre) := z]> (pre ++ y :: hole :: post)
                        = pre ++ y :: z :: post).
    { intros z. rewrite insert_app_r_alt by lia.
      by replace (S (length pre) - length pre)%nat with 1%nat by lia. }
    rewrite Hget, !Hput.
    destruct (Z.gtb_spec y.2 x.2) as [Hgt | Hle].
    + destruct (IH y (y :: post)) as (front & back & -> & Hback & Hlast & ->).
      exists front, (back ++ [y]). rewrite <- !app_assoc. repeat split; try done.
      apply Forall_app. split; [done |]. repeat constructor. lia.
    + exists (pre ++ [y]), []. rewrite app_nil_r, <- app_assoc. cbn [app].
      repeat split; [constructor |].
      intros z. rewrite last_snoc. intros [= <-]. lia.
Qed.

#[local] Instance ranked_trans : Transitive ranked.
Proof. intros a b c. unfold ranked. lia. Qed.

Lemma ranked_degree a b : ranked a b → a.2 <= b.2.
Proof. unfold ranked. lia. Qed.

Lemma insert_sorted (x : Z * Z) front back :
  StronglySorted ranked (front ++ back) →
  Forall (λ y, x.2 < y.2) back →
  (∀ y, last front = Some y → y.2 <= x.2) →
  (∀ c, c ∈ front ++ back → c.1 < x.1) →
  StronglySorted ranked (front ++ x :: back).
Proof.
  intros Hs Hback Hlast Hsq.
  apply StronglySorted_app in Hs as (Hcross & Hfront & Hbacks).
  apply StronglySorted_app. repeat split; [| done |].
  - intros c z Hc Hz. apply elem_of_cons in Hz as [-> | Hz]; [| by apply Hcross].
    assert (c.2 <= x.2) as Hle.
    { apply list_elem_of_split in Hc as (l1 & l2 & ->).
      destruct l2 as [| y l2 _] using rev_ind.
      - apply Hlast, last_snoc.
      - apply StronglySorted_app_1_r in Hfront.
        apply StronglySorted_cons in Hfront as [Hall _].
        rewrite Forall_forall in Hall.
        specialize (Hall y ltac:(apply elem_of_app; right; by apply list_elem_of_singleton)).
        apply ranked_degree in Hall.
        specialize (Hlast y). rewrite app_comm_cons, app_assoc, last_snoc in Hlast.
        specialize (Hlast eq_refl). lia. }
    specialize (Hsq c ltac:(apply elem_of_app; by left)). unfold ranked. lia.
  - apply StronglySorted_cons. split; [| done].
    eapply Forall_impl; [exact Hback |]. intros y Hy. unfold ranked. by left.
Qed.

(** ** The ranked list *)

Lemma rank_spec v : ∀ bits cands,
  (length cands + length bits ≤ 8)%nat →
  StronglySorted ranked cands →
  StronglySorted Z.lt bits →
  (∀ c d, c ∈ cands → d ∈ bits → c.1 < d) →
  ∃ cands',
    rank v bits (cands ++ replicate (8 - length cands) sentinel) (length cands)
    = cands' ++ replicate (8 - length cands') sentinel ∧
    StronglySorted ranked cands' ∧
    cands' ≡ₚ cands ++ (entry v <$> bits).
Proof.
  induction bits as [| d bits IH]; intros cands Hlen Hsorted Hbits Hlow; cbn [rank].
  - exists cands. by rewrite app_nil_r.
  - cbn [length] in Hlen.
    replace (8 - length cands)%nat with (S (7 - length cands)) by lia.
    rewrite replicate_S.
    destruct (shiftUp_spec (entry v d) cands sentinel (replicate (7 - length cands) sentinel))
      as (front & back & Hsplit & Hback & Hlast & ->).
    rewrite app_comm_cons, app_assoc.
    apply StronglySorted_cons in Hbits as [Hd Hbits].
    assert (Hl : length (front ++ entry v d :: back) = S (length cands))
      by (rewrite Hsplit, !length_app; cbn; lia).
    replace (7 - length cands)%nat with (8 - length (front ++ entry v d :: back))%nat by lia.
    rewrite <- Hl.
    destruct (IH (front ++ entry v d :: back)) as (cands' & -> & Hs' & Hp').
    + lia.
    + apply insert_sorted; try done; [by rewrite <- Hsplit |].
      intros c Hc. rewrite <- Hsplit in Hc. apply Hlow; [done | apply elem_of_cons; by left].
    + done.
    + intros c d' Hc Hd'. apply elem_of_app in Hc as [Hc | Hc].
      * apply Hlow; [| apply elem_of_cons; by right].
        rewrite Hsplit. apply elem_of_app. by left.
      * apply elem_of_cons in Hc as [-> | Hc].
        -- rewrite Forall_forall in Hd. by apply Hd.
        -- apply Hlow; [| apply elem_of_cons; by right].
           rewrite Hsplit. apply elem_of_app. by right.
    + exists cands'. repeat split; try done.
      rewrite Hp', Hsplit. cbn [fmap list_fmap].
      rewrite <- !app_assoc. cbn [app].
      by rewrite (Permutation_middle back _ (entry v d)).
Qed.

Lemma squares_sorted m (n : nat) : StronglySorted Z.lt (seqZ m (Z.of_nat n)).
Proof.
  revert m. induction n as [| n IH]; intros m; [constructor |].
  rewrite seqZ_cons by lia. replace (Z.pred (Z.of_nat (S n))) with (Z.of_nat n) by lia.
  constructor; [apply IH |]. apply Forall_forall. intros t Ht.
  apply elem_of_seqZ in Ht. lia.
Qed.

Lemma filter_sorted {A} (R : relation A) (P : A → Prop) `{∀ x, Decision (P x)} l :
  StronglySorted R l → StronglySorted R (filter P l).
Proof.
  induction 1 as [| a l Hs IH Hall]; [constructor |].
  rewrite filter_cons. destruct (decide (P a)); [| done].
  constructor; [done |]. rewrite Forall_forall in Hall |- *.
  intros x Hx. apply list_elem_of_filter in Hx as [_ Hx]. by apply Hall.
Qed.

Lemma legalMoves_sorted v sq : StronglySorted Z.lt (legalMoves v sq).
Proof.
  unfold legalMoves, knightMoves. do 2 apply filter_sorted.
  apply (squares_sorted 0 64).
Qed.

(** What [genList] returns. *)
Lemma genList_spec v sq :
  onBoard sq →
  ∃ cands,
    genList v sq = cands ++ replicate (8 - length cands) sentinel ∧
    StronglySorted ranked cands ∧
    cands ≡ₚ (λ d, (d, degree v d)) <$> legalMoves v sq.
Proof.
  intros Hsq. rewrite genList_rank by done.
  destruct (rank_spec v (legalMoves v sq) []) as (cands & Hrun & Hs & Hp).
  - cbn. by apply legalMoves_length.
  - constructor.
  - apply legalMoves_sorted.
  - intros c d Hc. by apply elem_of_nil in Hc.
  - exists cands. split; [exact Hrun |]. split; [done |].
    rewrite Hp. cbn [app].
    assert (entry v <$> legalMoves v sq = (λ d, (d, degree v d)) <$> legalMoves v sq)
      as ->; [| done].
    apply Forall_fmap_ext_1, Forall_forall. intros d Hd.
    apply legalMoves_spec in Hd as [Hd _]. apply knightMove_onBoard in Hd as [_ Hd].
    unfold entry. by rewrite bitCount_genMoveBoard.
Qed.

(** ** The order of the candidates *)

(** C5: for every square and every visited bitboard the list of
    [genList] is a run of leading candidates followed by sentinels
    [(noSq, 9)] only; the candidates are exactly the unvisited knight
    destinations of the square, each once and paired with its onward
    degree, and they are in non-decreasing order of degree with equal
    degrees in ascending order of square index. *)
Theorem genList_ranked (v : Z) (sq : Z) :
  onBoard sq →
  ∃ cands,
    genList v sq = cands ++ replicate (8 - length cands) sentinel ∧
    (length cands ≤ 8)%nat ∧
    cands.*1 ≡ₚ legalMoves v sq ∧
    (∀ d k, (d, k) ∈ cands → k = degree v d) ∧
    StronglySorted ranked cands.
Proof.
  intros Hsq. destruct (genList_spec v sq Hsq) as (cands & Hrun & Hs & Hp).
  exists cands. split; [done |]. split; [| split; [| split; [| done]]].
  - rewrite Hp, length_fmap. by apply legalMoves_length.
  - rewrite Hp, <- list_fmap_compose. by rewrite list_fmap_id.
  - intros d k Hin. rewrite Hp in Hin.
    apply list_elem_of_fmap in Hin as (d' & [= -> ->] & _). done.
Qed.

Lemma genList_ranked_witness :
  ∃ cands,
    genList 1 0 = cands ++ replicate (8 - length cands) sentinel ∧
    (length cands ≤ 8)%nat ∧
    cands.*1 ≡ₚ legalMoves 1 0 ∧
    (∀ d k, (d, k) ∈ cands → k = degree 1 d) ∧
    StronglySorted ranked cands.
Proof. apply (genList_ranked 1 0). unfold onBoard. lia. Defined.

Lemma genList_entries v sq m :
  onBoard sq → m ∈ genList v sq → m.1 ≠ noSq →
  knightMove sq m.1 = true ∧ Z.testbit v m.1 = false ∧ m.2 = degree v m.1.
Proof.
  intros Hsq Hm Hne. destruct (genList_spec v sq Hsq) as (cands & Hrun & _ & Hp).
  rewrite Hrun in Hm. apply elem_of_app in Hm as [Hm | Hm].
  - rewrite Hp in Hm. apply list_elem_of_fmap in Hm as (d & -> & Hd).
    apply legalMoves_spec in Hd as [? ?]. done.
  - apply elem_of_replicate_inv in Hm as ->. done.
Qed.

(** ** The board the lookahead sees *)

Lemma knightMove_sym a b : knightMove a b = knightMove b a.
Proof.
  unfold knightMove.
  rewrite (andb_comm (bool_decide (onBoard a))).
  replace (getRow b - getRow a) with (- (getRow a - getRow b)) by lia.
  replace (getColumn b - getColumn a) with (- (getColumn a - getColumn b)) by lia.
  by rewrite !Z.abs_opp.
Qed.

Lemma filter_without {A} (P : A → Prop) `{∀ x, Decision (P x)} `{EqDecision A}
    (x : A) (l : list A) :
  NoDup l → x ∈ l → P x →
  length (filter P l) = S (length (filter (λ t, P t ∧ t ≠ x) l)).
Proof.
  induction 1 as [| a l Ha Hnd IH]; intros Hx HP; [by apply elem_of_nil in Hx |].
  apply elem_of_cons in Hx as [-> | Hx].
  - rewrite filter_cons_True by done.
    rewrite (filter_cons_False (λ t, P t ∧ t ≠ a)) by tauto.
    cbn [length]. f_equal. f_equal. apply filter_ext_in.
    intros t Ht. split; [| tauto]. intros Hpt. split; [done |]. by intros ->.
  - rewrite !filter_cons.
    assert (a ≠ x) by (by intros ->).
    destruct (decide (P a)).
    + rewrite decide_True by done. cbn [length]. by rewrite IH.
    + rewrite decide_False by tauto. by apply IH.
Qed.

Lemma knightMoves_NoDup d : NoDup (knightMoves d).
Proof. unfold knightMoves, squares. apply NoDup_filter, NoDup_seqZ. Qed.

Lemma degree_setBit v sq d :
  onBoard sq → knightMove d sq = true → Z.testbit v sq = false →
  degree v d = degree (setBit v sq) d + 1.
Proof.
  intros Hsq Hk Hv. unfold degree, legalMoves.
  rewrite (filter_without _ sq (knightMoves d)).
  - rewrite (list_filter_iff (λ t, Z.testbit (setBit v sq) t = false)
               (λ t, Z.testbit v t = false ∧ t ≠ sq)); [lia |].
    intros t. rewrite testbit_setBit by done.
    rewrite orb_false_iff. by rewrite bool_decide_eq_false.
  - apply knightMoves_NoDup.
  - unfold knightMoves. apply list_elem_of_filter. split; [done |].
    by apply onBoard_squares.
  - done.
Qed.

(** C2, amended: the onward degree that [makeMove(sq)] pairs with a
    candidate [d] is the number of legal knight moves from [d] on the
    board after [sq] has been marked visited; [sq] is never among
    them, so that the degree is one less than on the board before the
    call when [sq] was unvisited then. *)
Theorem lookahead_after_marking (st : Backtrack) (sq d k : Z) :
  onBoard sq → (d, k) ∈ movesOf st sq → d ≠ noSq →
  k = degree (setBit (visitedSqs st) sq) d ∧
  (sq ∉ legalMoves (setBit (visitedSqs st) sq) d) ∧
  (Z.testbit (visitedSqs st) sq = false → k = degree (visitedSqs st) d - 1).
Proof.
  intros Hsq Hin Hne. unfold movesOf in Hin. cbn [enter visitedSqs] in Hin.
  destruct (genList_entries _ _ _ Hsq Hin Hne) as (Hk & _ & Hdeg). cbn in Hk, Hdeg.
  split; [done |]. split.
  - rewrite legalMoves_spec, testbit_setBit by done.
    rewrite bool_decide_eq_true_2 by done. rewrite orb_true_r. by intros [_ ?].
  - intros Hv. rewrite (degree_setBit _ sq) by (by rewrite 1?knightMove_sym). lia.
Qed.

(** C2 as stated fails: on the empty board the first call
    [makeMove(a1)] pairs c2 with the degree 5, while c2 has 6 legal
    knight moves on the board before a1 is marked, a1 among them. *)
Lemma lookahead_after_marking_witness :
  5 = degree (setBit (visitedSqs init) 0) 10 ∧
  (0 ∉ legalMoves (setBit (visitedSqs init) 0) 10) ∧
  (Z.testbit (visitedSqs init) 0 = false → 5 = degree (visitedSqs init) 10 - 1).
Proof.
  apply (lookahead_after_marking init 0 10 5).
  - by vm_compute.
  - apply (bool_decide_unpack _). by vm_compute.
  - by vm_compute.
Defined.

Lemma lookahead_before_marking_counterexample :
  ¬ (∀ st sq d k,
       onBoard sq → (d, k) ∈ movesOf st sq → d ≠ noSq →
       k = degree (visitedSqs st) d).
Proof.
  intros H. specialize (H init 0 10 5).
  assert (5 = degree (visitedSqs init) 10) as Habs; [| by vm_compute in Habs].
  apply H.
  - unfold onBoard. lia.
  - apply (bool_decide_unpack _). by vm_compute.
  - by vm_compute.
Qed.

(** ** Backtracking restores the board *)

Section Frame.
Variable call : Z → Backtrack → outcome.
Variable sq : Z.
Variable visited : Z.
Variable stack : list Z.
Hypothesis call_frame : ∀ d st st',
  visitedSqs st = visited → stackSq st = stack →
  onBoard d → Z.testbit visited d = false →
  call d st = Done st' → fullTour st' = false →
  visitedSqs st' = visited ∧ stackSq st' = stack.

Lemma tryMoves_frame ms : ∀ st st',
  visitedSqs st = visited → stackSq st = stack →
  (∀ m, m ∈ ms → m.1 ≠ noSq → onBoard m.1 ∧ Z.testbit visited m.1 = false) →
  tryMoves call sq ms st = Done st' → fullTour st' = false →
  visitedSqs st' = popBit visited sq ∧ stackSq st' = removelast stack.
Proof.
  induction ms as [| m ms IH]; intros st st' Hv Hs Hms; cbn [tryMoves]; [done |].
  destruct (Z.eqb_spec m.1 noSq) as [_ | Hne].
  - intros [= <-] _. cbn. by rewrite Hv, Hs.
  - destruct (call m.1 st) as [st1 | |] eqn:Hcall; [| done | done].
    destruct (Hms m ltac:(apply elem_of_cons; by left) Hne) as [Hon Hbit].
    destruct (fullTour st1) eqn:Hfull.
    + intros [= <-] Hst'. congruence.
    + destruct (call_frame _ _ _ Hv Hs Hon Hbit Hcall Hfull) as [Hv1 Hs1].
      apply IH; try done. intros m' Hm'. apply Hms, elem_of_cons. by right.
Qed.
End Frame.

Lemma genList_candidates v sq m :
  onBoard sq → m ∈ genList v sq → m.1 ≠ noSq →
  onBoard m.1 ∧ Z.testbit v m.1 = false.
Proof.
  intros Hsq Hm Hne. destruct (genList_entries v sq m Hsq Hm Hne) as (Hk & Hv & _).
  split; [| done]. by apply knightMove_onBoard in Hk as [_ ?].
Qed.

Lemma makeMove_frame fuel : ∀ sq st st',
  isU64 (visitedSqs st) → onBoard sq → Z.testbit (visitedSqs st) sq = false →
  makeMove fuel sq st = Done st' → fullTour st' = false →
  visitedSqs st' = visitedSqs st ∧ stackSq st' = stackSq st.
Proof.
  unfold makeMove.
  induction fuel as [| fuel IH]; intros sq st st' Hu Hsq Hbit; [done |].
  change (makeMoveWith ?f (S ?k) sq st)
    with (makeMoveBody f (makeMoveWith f k) sq st).
  unfold makeMoveBody.
  assert (Hpop : popBit (visitedSqs (enter sq st)) sq = visitedSqs st)
    by (by apply popBit_setBit).
  assert (Hrem : removelast (stackSq (enter sq st)) = stackSq st)
    by apply removelast_last.
  destruct (fullBoard (enter sq st)); [by intros [= <-] |].
  destruct (_ =? noSq).
  { intros [= <-] _. done. }
  intros Hrun Hfull. rewrite <- Hpop, <- Hrem.
  eapply tryMoves_frame; [| reflexivity | reflexivity | | exact Hrun | exact Hfull].
  - intros d st1 st1' Hv Hs Hd Hdbit. rewrite <- Hv, <- Hs.
    apply IH; [| done |]; rewrite Hv; [by apply isU64_setBit | done].
  - intros m Hm Hne. by apply (genList_candidates _ sq).
Qed.

(** C7: a call [makeMove(sq)] on an unvisited square that returns with
    [fullTour] false leaves [visitedSqs] and the path stack as they
    were before the call; and where [sq] has no unvisited neighbour
    (and the board is not full) the call does return, with the bit
    cleared, the path popped and [fullTour] untouched, so that the
    caller goes on to its next candidate. *)
Theorem dead_end_backtracks (fuel : nat) (sq : Z) (st : Backtrack) :
  isU64 (visitedSqs st) → onBoard sq → Z.testbit (visitedSqs st) sq = false →
  (∀ st', makeMove fuel sq st = Done st' → fullTour st' = false →
          visitedSqs st' = visitedSqs st ∧ stackSq st' = stackSq st) ∧
  (legalMoves (setBit (visitedSqs st) sq) sq = [] →
   setBit (visitedSqs st) sq ≠ FullBB →
   ∃ st', makeMove (S fuel) sq st = Done st' ∧ fullTour st' = fullTour st ∧
          visitedSqs st' = visitedSqs st ∧ stackSq st' = stackSq st).
Proof.
  intros Hu Hsq Hbit. split.
  - intros st'. by apply makeMove_frame.
  - intros Hnone Hfull. unfold makeMove.
    change (makeMoveWith ?f (S ?k) sq st)
      with (makeMoveBody f (makeMoveWith f k) sq st).
    unfold makeMoveBody, fullBoard. cbn [enter visitedSqs].
    rewrite (proj2 (Z.eqb_neq _ _) Hfull).
    rewrite genList_rank, Hnone by done. cbn [rank]. cbn.
    eexists. split; [reflexivity |]. cbn.
    rewrite popBit_setBit by done. by rewrite removelast_last.
Qed.

Lemma dead_end_backtracks_witness :
  ∃ st', makeMove 2 0 corner = Done st' ∧ fullTour st' = fullTour corner ∧
         visitedSqs st' = visitedSqs corner ∧ stackSq st' = stackSq corner.
Proof.
  assert (Hu : isU64 (visitedSqs corner)) by (by vm_compute).
  assert (Hsq : onBoard 0) by (by vm_compute).
  apply (dead_end_backtracks 1 0 corner Hu Hsq eq_refl).
  - by vm_compute.
  - by vm_compute.
Defined.

(** ** A full tour is a Hamiltonian path *)

Lemma isPath_snoc l x :
  isPath l → (∀ y, last l = Some y → knightMove y x = true) → isPath (l ++ [x]).
Proof.
  induction l as [| a l IH]; intros Hp Hlast; [done |].
  destruct l as [| b l].
  - cbn. split; [| done]. by apply Hlast.
  - destruct Hp as [Hab Hp]. cbn [app isPath]. split; [done |].
    apply IH; [done |]. intros y Hy. apply Hlast. by rewrite last_cons_cons.
Qed.

Lemma tourInv_enter v stack sq :
  tourInv v stack → onBoard sq → Z.testbit v sq = false →
  (∀ y, last stack = Some y → knightMove y sq = true) →
  tourInv (setBit v sq) (stack ++ [sq]).
Proof.
  intros (Hu & Hbits & Hnd & Hp) Hsq Hbit Hlast. unfold tourInv.
  split; [by apply isU64_setBit |]. split; [| split].
  - intros t. rewrite testbit_setBit, orb_true_iff, elem_of_app by done.
    rewrite Hbits, list_elem_of_singleton, bool_decide_eq_true. done.
  - apply NoDup_app. split; [done |]. split; [| apply NoDup_singleton].
    intros t Ht ->%list_elem_of_singleton. apply Hbits in Ht. congruence.
  - by apply isPath_snoc.
Qed.

Section Tour.
Variable call : Z → Backtrack → outcome.
Variable sq : Z.
Variable visited : Z.
Variable stack : list Z.
Hypothesis call_frame : ∀ d st st',
  visitedSqs st = visited → stackSq st = stack →
  onBoard d → Z.testbit visited d = false →
  call d st = Done st' → fullTour st' = false →
  visitedSqs st' = visited ∧ stackSq st' = stack.
Hypothesis call_tour : ∀ d st st',
  visitedSqs st = visited → stackSq st = stack → fullTour st = false →
  onBoard d → Z.testbit visited d = false →
  (∀ y, last stack = Some y → knightMove y d = true) →
  call d st = Done st' → fullTour st' = true →
  visitedSqs st' = FullBB ∧ tourInv (visitedSqs st') (stackSq st') ∧
  ∃ tail, stackSq st' = stack ++ d :: tail.

Lemma tryMoves_tour ms : ∀ st st',
  visitedSqs st = visited → stackSq st = stack → fullTour st = false →
  (∀ m, m ∈ ms → m.1 ≠ noSq →
     onBoard m.1 ∧ Z.testbit visited m.1 = false ∧
     ∀ y, last stack = Some y → knightMove y m.1 = true) →
  tryMoves call sq ms st = Done st' → fullTour st' = true →
  visitedSqs st' = FullBB ∧ tourInv (visitedSqs st') (stackSq st') ∧
  ∃ tail, stackSq st' = stack ++ tail.
Proof.
  induction ms as [| m ms IH]; intros st st' Hv Hs Hf Hms; cbn [tryMoves]; [done |].
  destruct (Z.eqb_spec m.1 noSq) as [_ | Hne].
  - intros [= <-]. cbn. congruence.
  - destruct (call m.1 st) as [st1 | |] eqn:Hcall; [| done | done].
    destruct (Hms m ltac:(apply elem_of_cons; by left) Hne) as (Hon & Hbit & Hlast).
    destruct (fullTour st1) eqn:Hfull.
    + intros [= <-] _.
      destruct (call_tour _ _ _ Hv Hs Hf Hon Hbit Hlast Hcall Hfull)
        as (Hv1 & Hinv & tail & Hs1).
      split; [done |]. split; [done |]. by exists (m.1 :: tail).
    + destruct (call_frame _ _ _ Hv Hs Hon Hbit Hcall Hfull) as [Hv1 Hs1].
      apply IH; try done. intros m' Hm'. apply Hms, elem_of_cons. by right.
Qed.
End Tour.

Lemma makeMove_tour fuel : ∀ sq st st',
  tourInv (visitedSqs st) (stackSq st) → fullTour st = false →
  onBoard sq → Z.testbit (visitedSqs st) sq = false →
  (∀ y, last (stackSq st) = Some y → knightMove y sq = true) →
  makeMove fuel sq st = Done st' → fullTour st' = true →
  visitedSqs st' = FullBB ∧ tourInv (visitedSqs st') (stackSq st') ∧
  ∃ tail, stackSq st' = stackSq st ++ sq :: tail.
Proof.
  induction fuel as [| fuel IH]; intros sq st st' Hinv Hf Hsq Hbit Hlast; [done |].
  unfold makeMove.
  change (makeMoveWith ?f (S ?k) sq st)
    with (makeMoveBody f (makeMoveWith f k) sq st).
  unfold makeMoveBody.
  pose proof (tourInv_enter _ _ _ Hinv Hsq Hbit Hlast) as Hinv1.
  destruct (fullBoard (enter sq st)) eqn:Hfull.
  { intros [= <-] _. cbn. apply Z.eqb_eq in Hfull. cbn in Hfull.
    split; [done |]. split; [done |]. by exists []. }
  destruct (_ =? noSq).
  { intros [= <-]. cbn. congruence. }
  intros Hrun Hfull'.
  destruct (tryMoves_tour (makeMove fuel) sq
              (visitedSqs (enter sq st)) (stackSq (enter sq st)))
    with (ms := genList (visitedSqs (enter sq st)) sq) (st := enter sq st) (st' := st')
    as (Hv' & Hinv' & tail & Hs'); try done.
  - intros d st1 st1' Hv Hs Hd Hdbit. rewrite <- Hv, <- Hs.
    apply makeMove_frame; [| done |]; rewrite Hv; [apply Hinv1 | done].
  - intros d st1 st1' Hv Hs Hf1 Hd Hdbit Hdlast Hcall Hfull1. rewrite <- Hs.
    apply (IH d st1 st1'); try done; rewrite ?Hv, ?Hs; done.
  - intros m Hm Hne.
    destruct (genList_entries _ _ _ Hsq Hm Hne) as (Hk & Hv & _).
    split; [by apply knightMove_onBoard in Hk as [_ ?] |]. split; [done |].
    intros y. cbn [enter stackSq]. rewrite last_snoc. by intros [= <-].
  - split; [done |]. split; [done |].
    cbn [enter stackSq] in Hs'. rewrite <- app_assoc in Hs'. by exists tail.
Qed.

Lemma testbit_FullBB t : Z.testbit FullBB t = true ↔ onBoard t.
Proof.
  rewrite FullBB_ones, Z.testbit_ones by lia. unfold onBoard.
  rewrite andb_true_iff, Z.leb_le, Z.ltb_lt. done.
Qed.

Lemma tourInv_init : tourInv (visitedSqs init) (stackSq init).
Proof.
  cbn. split; [by vm_compute |]. split; [| split; [constructor | done]].
  intros t. rewrite Z.testbit_0_l. split; [done |]. by intros ?%elem_of_nil.
Qed.

(** C3: for every starting square, when the search returns with
    [fullTour] true the path stack has 64 entries, is a permutation of
    the squares 0..63 (each index exactly once), starts with the
    starting square, and every two consecutive entries are a knight
    move apart. *)
Theorem full_tour_is_hamiltonian (fuel : nat) (sq : Z) (st' : Backtrack) :
  onBoard sq → backtrack fuel sq init = Done st' → fullTour st' = true →
  length (stackSq st') = 64%nat ∧
  stackSq st' ≡ₚ squares ∧
  head (stackSq st') = Some sq ∧
  isPath (stackSq st').
Proof.
  intros Hsq Hrun Hfull. unfold backtrack in Hrun.
  destruct (makeMove_tour fuel sq (setStart sq init) st')
    as (Hv & (_ & Hbits & Hnd & Hp) & tail & Hs); try done.
  { apply tourInv_init. }
  { apply Z.testbit_0_l. }
  assert (Hperm : stackSq st' ≡ₚ squares).
  { apply NoDup_Permutation; [done | apply NoDup_seqZ |].
    intros t. rewrite <- Hbits, Hv, testbit_FullBB. apply onBoard_squares. }
  split; [by rewrite Hperm |]. split; [done |]. split; [by rewrite Hs | done].
Qed.

Lemma full_tour_is_hamiltonian_witness :
  length (stackSq a1Result) = 64%nat ∧
  stackSq a1Result ≡ₚ squares ∧
  head (stackSq a1Result) = Some 0 ∧
  isPath (stackSq a1Result).
Proof.
  apply (full_tour_is_hamiltonian 64 0 a1Result).
  - by vm_compute.
  - vm_compute. reflexivity.
  - reflexivity.
Defined.

(** ** More fuel changes nothing *)

Lemma tryMoves_mono (call call' : Z → Backtrack → outcome) sq :
  (∀ d st r, call d st = Done r → call' d st = Done r) →
  ∀ ms st r, tryMoves call sq ms st = Done r → tryMoves call' sq ms st = Done r.
Proof.
  intros Hcall. induction ms as [| m ms IH]; intros st r; cbn; [done |].
  destruct (m.1 =? noSq); [done |].
  destruct (call m.1 st) as [st1 | |] eqn:E; [| done | done].
  rewrite (Hcall _ _ _ E). destruct (fullTour st1); [done | apply IH].
Qed.

Lemma makeMoveWith_mono_S full fuel : ∀ sq st r,
  makeMoveWith full fuel sq st = Done r → makeMoveWith full (S fuel) sq st = Done r.
Proof.
  induction fuel as [| fuel IH]; intros sq st r; [done |].
  change (makeMoveWith full (S ?k) sq st)
    with (makeMoveBody full (makeMoveWith full k) sq st).
  unfold makeMoveBody.
  destruct (full _); [done |]. destruct (_ =? noSq); [done |].
  by apply tryMoves_mono.
Qed.

Lemma makeMoveWith_mono full fuel fuel' sq st r :
  (fuel ≤ fuel')%nat →
  makeMoveWith full fuel sq st = Done r → makeMoveWith full fuel' sq st = Done r.
Proof.
  induction 1 as [| fuel' _ IH]; [done |].
  intros H. by apply makeMoveWith_mono_S, IH.
Qed.

(** ** The tour from a1 *)

(** C4: from a1 on the empty board the search returns, at any recursion
    depth of 64 or more, with [fullTour] set and 64 squares on the path
    stack. *)
Theorem tour_from_a1 :
  ∃ st, (∀ extra, backtrack (64 + extra) 0 init = Done st) ∧
        fullTour st = true ∧ length (stackSq st) = 64%nat.
Proof.
  assert (Hrun : makeMoveWith fullBoard 64 0 (setStart 0 init) = Done a1Result)
    by (vm_compute; reflexivity).
  exists a1Result. split; [| split; reflexivity].
  intros extra.
  exact (makeMoveWith_mono _ _ _ _ _ _ (Nat.le_add_r 64 extra) Hrun).
Qed.

(** ** The two variants *)

Lemma tryMoves_ext (call call' : Z → Backtrack → outcome) sq :
  (∀ d st, fullTour st = false → call d st = call' d st) →
  ∀ ms st, fullTour st = false → tryMoves call sq ms st = tryMoves call' sq ms st.
Proof.
  intros Hcall. induction ms as [| m ms IH]; intros st Hst; cbn; [done |].
  destruct (m.1 =? noSq); [done |]. rewrite (Hcall _ _ Hst).
  destruct (call' m.1 st) as [st1 | |]; [| done | done].
  destruct (fullTour st1) eqn:E; [done | by apply IH].
Qed.

Lemma makeMove_variants fuel : ∀ sq st,
  fullTour st = false → makeMove_main fuel sq st = makeMove fuel sq st.
Proof.
  unfold makeMove_main, makeMove.
  induction fuel as [| fuel IH]; intros sq st Hst; [done |].
  change (makeMoveWith ?f (S ?k) sq st)
    with (makeMoveBody f (makeMoveWith f k) sq st).
  unfold makeMoveBody, fullBoardOrTour, fullBoard. cbn [fullTour enter].
  rewrite Hst, orb_false_r.
  destruct (_ =? FullBB); [done |]. destruct (_ =? noSq); [done |].
  by apply tryMoves_ext.
Qed.

(** C10: for every starting square and every recursion depth the
    [makeMove] recursion of src/knights_tour/main.cpp and that of
    src/unnamed/part_000, run by [backtrack] on a fresh object, come to
    the same outcome: the same [visitedSqs], path stack, [fullTour] and
    [totalMoves]. *)
Theorem variants_agree (fuel : nat) (sq : Z) :
  backtrack_main fuel sq init = backtrack fuel sq init.
Proof. unfold backtrack_main, backtrack. by apply makeMove_variants. Qed.

End KnightFacts.

(** * More about the knight's tour *)

Module KnightMore.
Import Knight KnightFacts.

(** ** The bit operations *)

Lemma getBit_testbit b sq : onBoard sq → getBit b sq = Z.testbit b sq.
Proof.
  intros Hsq. unfold getBit. rewrite shl_one by done. unfold onBoard in Hsq.
  destruct (Z.testbit b sq) eqn:Hbit.
  - apply negb_true_iff, Z.eqb_neq. intros Hz.
    assert (Z.testbit (Z.land b (2 ^ sq)) sq = true) as Habs
      by (rewrite Z.land_spec, Hbit, Z.pow2_bits_true; [done | lia]).
    by rewrite Hz, Z.testbit_0_l in Habs.
  - apply negb_false_iff, Z.eqb_eq. apply Z.bits_inj'. intros t Ht.
    rewrite Z.land_spec, Z.testbit_0_l, Z.pow2_bits_eqb by lia.
    destruct (Z.eqb_spec sq t) as [<- | _]; [by rewrite Hbit | by rewrite andb_false_r].
Qed.

(** X2: on a 64-bit board and for board squares, [getBit] reads what
    [setBit] and [popBit] wrote, neither touches another square, both
    stay within 64 bits, and each undoes the other on a bit that was in
    the opposite state. *)
Theorem bit_round_trip (b sq t : Z) :
  isU64 b → onBoard sq → onBoard t →
  getBit (setBit b sq) sq = true ∧
  getBit (popBit b sq) sq = false ∧
  (t ≠ sq → getBit (setBit b sq) t = getBit b t ∧ getBit (popBit b sq) t = getBit b t) ∧
  isU64 (setBit b sq) ∧ isU64 (popBit b sq) ∧
  (getBit b sq = false → popBit (setBit b sq) sq = b) ∧
  (getBit b sq = true → setBit (popBit b sq) sq = b).
Proof.
  intros Hb Hsq Ht.
  rewrite !getBit_testbit, !testbit_setBit, !testbit_popBit by done.
  rewrite bool_decide_eq_true_2 by done.
  split; [by rewrite orb_true_r |]. split; [by rewrite andb_false_r |].
  split; [| split; [by apply isU64_setBit | split; [by apply isU64_popBit |]]].
  - intros Hne. rewrite bool_decide_eq_false_2 by done.
    by rewrite orb_false_r, andb_true_r.
  - split; [by apply popBit_setBit |].
    intros Hbit. apply Z.bits_inj'. intros u _.
    rewrite testbit_setBit, testbit_popBit by done.
    destruct (bool_decide_reflect (u = sq)) as [-> | _].
    + by rewrite Hbit.
    + by rewrite orb_false_r, andb_true_r.
Qed.

Lemma bit_round_trip_witness :
  getBit (setBit 5 3) 3 = true ∧
  getBit (popBit 5 3) 3 = false ∧
  (2 ≠ 3 → getBit (setBit 5 3) 2 = getBit 5 2 ∧ getBit (popBit 5 3) 2 = getBit 5 2) ∧
  isU64 (setBit 5 3) ∧ isU64 (popBit 5 3) ∧
  (getBit 5 3 = false → popBit (setBit 5 3) 3 = 5) ∧
  (getBit 5 3 = true → setBit (popBit 5 3) 3 = 5).
Proof. apply (bit_round_trip 5 3 2); by vm_compute. Defined.

(** X3: on a non-empty 64-bit board [popLsb] returns the lowest set
    square, a board square, and leaves the board with exactly that bit
    cleared, so with a population count one less. *)
Theorem popLsb_lowest (b : Z) :
  isU64 b → b ≠ 0 →
  onBoard (popLsb b).1 ∧
  Z.testbit b (popLsb b).1 = true ∧
  (∀ t, 0 <= t < (popLsb b).1 → Z.testbit b t = false) ∧
  (∀ t, Z.testbit (popLsb b).2 t = Z.testbit b t && negb (bool_decide (t = (popLsb b).1))) ∧
  isU64 (popLsb b).2 ∧
  bitCount (popLsb b).2 = bitCount b - 1.
Proof.
  intros Hb Hne. cbn [popLsb fst snd].
  change (Z.land b (bnot (shl 1 (lsb b)))) with (popBit b (lsb b)).
  pose proof (lsb_onBoard b Hb Hne) as Hsq.
  destruct (lsb_spec b) as (_ & Hbit & Hlow); [unfold isU64 in Hb; lia |].
  split; [done |]. split; [done |]. split; [done |].
  split; [intros t; by apply testbit_popBit |].
  split; [by apply isU64_popBit |].
  rewrite !bitCount_bitsOf by (by try apply isU64_popBit).
  rewrite (bitsOf_popLsb b Hb Hne). cbn [popLsb snd length].
  change (Z.land b (bnot (shl 1 (lsb b)))) with (popBit b (lsb b)). lia.
Qed.

Lemma popLsb_lowest_witness :
  onBoard (popLsb 12).1 ∧
  Z.testbit 12 (popLsb 12).1 = true ∧
  (∀ t, 0 <= t < (popLsb 12).1 → Z.testbit 12 t = false) ∧
  (∀ t, Z.testbit (popLsb 12).2 t = Z.testbit 12 t && negb (bool_decide (t = (popLsb 12).1))) ∧
  isU64 (popLsb 12).2 ∧
  bitCount (popLsb 12).2 = bitCount 12 - 1.
Proof. apply (popLsb_lowest 12); by vm_compute. Defined.

(** X1: for a board square, [genMoveBoard] is a 64-bit board whose set
    bits are exactly the unvisited squares one knight's move away (no
    shift wraps over a board edge), at most eight of them. *)
Theorem genMoveBoard_exact (visited sq : Z) :
  onBoard sq →
  isU64 (genMoveBoard visited sq) ∧
  (∀ t, Z.testbit (genMoveBoard visited sq) t
        = knightMove sq t && negb (Z.testbit visited t)) ∧
  0 <= bitCount (genMoveBoard visited sq) <= 8.
Proof.
  intros Hsq. split; [apply isU64_genMoveBoard |].
  split; [intros t; by apply testbit_genMoveBoard |].
  rewrite bitCount_genMoveBoard by done. unfold degree.
  pose proof (legalMoves_length visited sq Hsq). lia.
Qed.

Lemma genMoveBoard_exact_witness :
  isU64 (genMoveBoard 1024 0) ∧
  (∀ t, Z.testbit (genMoveBoard 1024 0) t = knightMove 0 t && negb (Z.testbit 1024 t)) ∧
  0 <= bitCount (genMoveBoard 1024 0) <= 8.
Proof. apply (genMoveBoard_exact 1024 0). by vm_compute. Defined.

(** X4: for a row and a column of the board, [coordsToSq] gives the one
    board square that [getRow] and [getColumn] take back to them; on
    such a square the quotient and remainder of the model are those of
    C++, which rounds towards zero. *)
Theorem coords_round_trip (row col sq : Z) :
  0 <= row < 8 → 0 <= col < 8 →
  (sq = coordsToSq row col ↔ onBoard sq ∧ getRow sq = row ∧ getColumn sq = col) ∧
  getRow (coordsToSq row col) = Z.quot (coordsToSq row col) 8 ∧
  getColumn (coordsToSq row col) = Z.rem (coordsToSq row col) 8.
Proof.
  intros Hrow Hcol. unfold coordsToSq, getRow, getColumn, onBoard.
  split; [| split].
  - split.
    + intros ->. split; [lia |]. split.
      * symmetry. apply (Z.div_unique _ _ _ col); lia.
      * symmetry. apply (Z.mod_unique _ _ row); lia.
    + intros (Hsq & <- & <-). pose proof (Z.div_mod sq 8). lia.
  - rewrite Z.quot_div_nonneg by lia. done.
  - rewrite Z.rem_mod_nonneg by lia. done.
Qed.

Lemma coords_round_trip_witness :
  (26 = coordsToSq 3 2 ↔ onBoard 26 ∧ getRow 26 = 3 ∧ getColumn 26 = 2) ∧
  getRow (coordsToSq 3 2) = Z.quot (coordsToSq 3 2) 8 ∧
  getColumn (coordsToSq 3 2) = Z.rem (coordsToSq 3 2) 8.
Proof. apply (coords_round_trip 3 2 26); lia. Defined.

(** X6: [genList] always fills the eight slots, and its first slot holds
    the sentinel exactly when the square has no unvisited knight
    destination, in which case all eight slots hold it. *)
Theorem genList_no_moves (visited sq : Z) :
  onBoard sq →
  length (genList visited sq) = 8%nat ∧
  ((genList visited sq !!! 0%nat).1 = noSq ↔ legalMoves visited sq = []) ∧
  (legalMoves visited sq = [] → genList visited sq = replicate 8 sentinel).
Proof.
  intros Hsq. destruct (genList_spec visited sq Hsq) as (cands & Hrun & _ & Hperm).
  assert (Hlen : (length cands ≤ 8)%nat)
    by (rewrite Hperm, length_fmap; by apply legalMoves_length).
  rewrite Hrun. split; [rewrite length_app, length_replicate; lia |].
  destruct cands as [| c cands].
  - apply Permutation_nil_l in Hperm. symmetry in Hperm.
    apply fmap_nil_inv in Hperm. rewrite Hperm. by split.
  - assert (Hc : c ∈ (λ d, (d, degree visited d)) <$> legalMoves visited sq)
      by (rewrite <- Hperm; apply elem_of_cons; by left).
    apply list_elem_of_fmap in Hc as (d & -> & Hd).
    assert (legalMoves visited sq ≠ []) by (intros E; rewrite E in Hd; by apply elem_of_nil in Hd).
    apply legalMoves_spec in Hd as [Hk _]. apply knightMove_onBoard in Hk as [_ Hd].
    cbn. unfold noSq, onBoard in *. split; [split; [lia | done] | done].
Qed.

Lemma genList_no_moves_witness :
  length (genList 0 0) = 8%nat ∧
  ((genList 0 0 !!! 0%nat).1 = noSq ↔ legalMoves 0 0 = []) ∧
  (legalMoves 0 0 = [] → genList 0 0 = replicate 8 sentinel).
Proof. apply (genList_no_moves 0 0). by vm_compute. Defined.

(** ** Reading and writing squares *)

Lemma parseSquare_inv s sq :
  parseSquare s = Some sq →
  ∃ row col, 0 <= row < 8 ∧ 0 <= col < 8 ∧ sq = coordsToSq row col ∧
    s = String (ascii_of_N (Z.to_N (97 + col)))
          (String (ascii_of_N (Z.to_N (49 + row))) EmptyString).
Proof.
  destruct s as [| c0 [| c1 [|]]]; try done. cbn [parseSquare].
  set (x0 := Z.of_N (N_of_ascii c0)). set (x1 := Z.of_N (N_of_ascii c1)).
  destruct (_ && _) eqn:Hok; [| done]. intros [= <-].
  rewrite !andb_true_iff, !Z.leb_le in Hok.
  exists (x1 - 49), (x0 - 97). split; [lia |]. split; [lia |]. split; [done |].
  replace (97 + (x0 - 97)) with x0 by lia. replace (49 + (x1 - 49)) with x1 by lia.
  unfold x0, x1. by rewrite !N2Z.id, !ascii_N_embedding.
Qed.

Lemma small_cases (P : Z → Prop) x :
  0 <= x < 8 → P 0 → P 1 → P 2 → P 3 → P 4 → P 5 → P 6 → P 7 → P x.
Proof.
  intros Hx. assert (x = 0 ∨ x = 1 ∨ x = 2 ∨ x = 3 ∨ x = 4 ∨ x = 5 ∨ x = 6 ∨ x = 7)
    as Hc by lia.
  intros; repeat destruct Hc as [-> | Hc]; subst; done.
Qed.

Lemma app_space_inj (s s' : string) : s +:+ " " = s' +:+ " " → s = s'.
Proof.
  revert s'. induction s as [| c s IH]; intros [| c' s']; cbn.
  - done.
  - intros [= <- H]. by destruct s'.
  - intros [= -> H]. by destruct s.
  - intros [= -> H]. f_equal. by apply IH.
Qed.

Lemma sqToString_name row col :
  0 <= row < 8 → 0 <= col < 8 →
  sqToString (coordsToSq row col)
  = String (ascii_of_N (Z.to_N (97 + col)))
      (String (ascii_of_N (Z.to_N (49 + row))) EmptyString) +:+ " " ∧
  parseSquare (String (ascii_of_N (Z.to_N (97 + col)))
                 (String (ascii_of_N (Z.to_N (49 + row))) EmptyString))
  = Some (coordsToSq row col).
Proof.
  intros Hrow Hcol. pattern row. apply small_cases; [done | ..];
    pattern col; apply small_cases; try done; by vm_compute.
Qed.

(** X5: [main] accepts a word and computes the square [sq] from it
    exactly when [sq] is a board square whose [sqToString] output is
    that word followed by a blank; every board square is the square of
    some accepted word.  So [backtrack] is only ever started on a
    board square. *)
Theorem parseSquare_sqToString (s : string) (sq : Z) :
  (parseSquare s = Some sq ↔ onBoard sq ∧ sqToString sq = s +:+ " ") ∧
  (onBoard sq → ∃ s', parseSquare s' = Some sq).
Proof.
  assert (Hcoords : onBoard sq →
            ∃ row col, 0 <= row < 8 ∧ 0 <= col < 8 ∧ sq = coordsToSq row col).
  { intros Hsq. exists (getRow sq), (getColumn sq).
    unfold getRow, getColumn, coordsToSq, onBoard in *.
    pose proof (Z.div_mod sq 8). pose proof (Z.mod_pos_bound sq 8).
    assert (0 <= sq / 8 < 8)
      by (split; [apply Z.div_pos | apply Z.div_lt_upper_bound]; lia).
    lia. }
  split; [split |].
  - intros (row & col & Hrow & Hcol & -> & ->)%parseSquare_inv.
    split; [unfold onBoard, coordsToSq; lia | by apply sqToString_name].
  - intros [Hsq Hs]. destruct (Hcoords Hsq) as (row & col & Hrow & Hcol & ->).
    destruct (sqToString_name row col Hrow Hcol) as [Hname Hparse].
    rewrite Hname in Hs. apply app_space_inj in Hs as <-. done.
  - intros Hsq. destruct (Hcoords Hsq) as (row & col & Hrow & Hcol & ->).
    eexists. by apply sqToString_name.
Qed.

(** ** What a search comes to *)

(** X7: a search started on a fresh object that returns has either
    failed, with [fullTour] false, an empty board and an empty path
    stack, or succeeded, with [fullTour] true and all 64 bits set. *)
Theorem search_outcome (fuel : nat) (sq : Z) (st' : Backtrack) :
  onBoard sq → backtrack fuel sq init = Done st' →
  (fullTour st' = false ∧ visitedSqs st' = 0 ∧ stackSq st' = []) ∨
  (fullTour st' = true ∧ visitedSqs st' = FullBB).
Proof.
  intros Hsq Hrun. unfold backtrack in Hrun.
  destruct (fullTour st') eqn:Hfull.
  - right. split; [done |].
    destruct (makeMove_tour fuel sq (setStart sq init) st') as (Hv & _); try done.
    + apply tourInv_init.
    + apply Z.testbit_0_l.
  - left. split; [done |].
    apply (makeMove_frame fuel sq (setStart sq init) st'); try done.
    apply Z.testbit_0_l.
Qed.

Lemma search_outcome_witness :
  (fullTour a1Result = false ∧ visitedSqs a1Result = 0 ∧ stackSq a1Result = []) ∨
  (fullTour a1Result = true ∧ visitedSqs a1Result = FullBB).
Proof.
  apply (search_outcome 64 0 a1Result); [by vm_compute |].
  vm_compute. reflexivity.
Defined.

(** ** The depth of the recursion *)

Lemma stack_room v stack sq :
  tourInv v stack → onBoard sq → Z.testbit v sq = false → (length stack < 64)%nat.
Proof.
  intros (Hu & Hbits & Hnd & _) Hsq Hbit.
  assert (Hsub : sq :: stack ⊆+ squares).
  { apply NoDup_submseteq.
    - constructor; [| done]. intros Hin%Hbits. congruence.
    - intros t [-> | Ht]%elem_of_cons; apply onBoard_squares; [done |].
      apply Hbits in Ht. by eapply testbit_isU64. }
  apply submseteq_length in Hsub. unfold squares in Hsub.
  rewrite length_seqZ in Hsub. cbn in Hsub. lia.
Qed.

Section Depth.
Variable call : Z → Backtrack → outcome.
Variable sq : Z.
Variable visited : Z.
Variable stack : list Z.
Hypothesis call_frame : ∀ d st st',
  visitedSqs st = visited → stackSq st = stack →
  onBoard d → Z.testbit visited d = false →
  call d st = Done st' → fullTour st' = false →
  visitedSqs st' = visited ∧ stackSq st' = stack.
Variable bad : outcome.
Hypothesis bad_not_Done : ∀ st, bad ≠ Done st.
Hypothesis call_good : ∀ d st,
  visitedSqs st = visited → stackSq st = stack →
  onBoard d → Z.testbit visited d = false → knightMove sq d = true →
  call d st ≠ bad.

Lemma tryMoves_good ms : ∀ st,
  visitedSqs st = visited → stackSq st = stack →
  (∀ m, m ∈ ms → m.1 ≠ noSq →
     onBoard m.1 ∧ Z.testbit visited m.1 = false ∧ knightMove sq m.1 = true) →
  tryMoves call sq ms st = bad → bad = PastTheEnd ∧ ∀ m, m ∈ ms → m.1 ≠ noSq.
Proof.
  induction ms as [| m ms IH]; intros st Hv Hs Hms; cbn [tryMoves].
  - intros <-. split; [done |]. by intros m ?%elem_of_nil.
  - destruct (Z.eqb_spec m.1 noSq) as [_ | Hne].
    + intros Hbad. symmetry in Hbad. by apply bad_not_Done in Hbad.
    + destruct (Hms m ltac:(apply elem_of_cons; by left) Hne) as (Hon & Hbit & Hk).
      pose proof (call_good m.1 st Hv Hs Hon Hbit Hk) as Hgood.
      destruct (call m.1 st) as [st1 | |] eqn:Hcall; try done.
      destruct (fullTour st1) eqn:Hfull.
      * intros Hbad. symmetry in Hbad. by apply bad_not_Done in Hbad.
      * destruct (call_frame _ _ _ Hv Hs Hon Hbit Hcall Hfull) as [Hv1 Hs1].
        intros Hbad. destruct (IH st1 Hv1 Hs1) as [HP Hall]; [| done |].
        { intros m' Hm'. apply Hms, elem_of_cons. by right. }
        split; [done |]. intros m' [-> | Hm']%elem_of_cons; [done | by apply Hall].
Qed.
End Depth.

Lemma genList_moves v sq m :
  onBoard sq → m ∈ genList v sq → m.1 ≠ noSq →
  onBoard m.1 ∧ Z.testbit v m.1 = false ∧ knightMove sq m.1 = true.
Proof.
  intros Hsq Hm Hne. destruct (genList_entries v sq m Hsq Hm Hne) as (Hk & Hv & _).
  split; [by apply knightMove_onBoard in Hk as [_ ?] | done].
Qed.

Lemma makeMove_depth fuel : ∀ sq st,
  tourInv (visitedSqs st) (stackSq st) →
  onBoard sq → Z.testbit (visitedSqs st) sq = false →
  (∀ y, last (stackSq st) = Some y → knightMove y sq = true) →
  (64 ≤ fuel + length (stackSq st))%nat →
  makeMove fuel sq st ≠ OutOfFuel.
Proof.
  induction fuel as [| fuel IH]; intros sq st Hinv Hsq Hbit Hlast Hfuel.
  { pose proof (stack_room _ _ _ Hinv Hsq Hbit). lia. }
  unfold makeMove.
  change (makeMoveWith ?f (S ?k) sq st)
    with (makeMoveBody f (makeMoveWith f k) sq st).
  unfold makeMoveBody.
  pose proof (tourInv_enter _ _ _ Hinv Hsq Hbit Hlast) as Hinv1.
  destruct (fullBoard (enter sq st)); [done |].
  destruct (_ =? noSq); [done |].
  intros Hbad.
  destruct (tryMoves_good (makeMove fuel) sq
              (visitedSqs (enter sq st)) (stackSq (enter sq st)))
    with (bad := OutOfFuel) (ms := genList (visitedSqs (enter sq st)) sq)
         (st := enter sq st) as [Habs _]; try done.
  - intros d st1 st1' Hv Hs Hd Hdbit. rewrite <- Hv, <- Hs.
    apply makeMove_frame; [| done |]; rewrite Hv; [apply Hinv1 | done].
  - intros d st1 Hv Hs Hd Hdbit Hk. apply IH; rewrite ?Hv, ?Hs; try done.
    + cbn [enter stackSq]. intros y. rewrite last_snoc. by intros [= <-].
    + cbn [enter stackSq]. rewrite length_app. cbn. lia.
  - intros m Hm Hne. by apply genList_moves.
Qed.

(** X8: from any board square the recursion is never deeper than 64
    calls: with 64 levels or more the search does not run out of
    depth. *)
Theorem recursion_depth (fuel : nat) (sq : Z) :
  onBoard sq → (64 ≤ fuel)%nat → backtrack fuel sq init ≠ OutOfFuel.
Proof.
  intros Hsq Hfuel. unfold backtrack. apply makeMove_depth; try done.
  - apply tourInv_init.
  - apply Z.testbit_0_l.
  - cbn. lia.
Qed.

Lemma recursion_depth_witness : backtrack 64 27 init ≠ OutOfFuel.
Proof. apply (recursion_depth 64 27); [by vm_compute | lia]. Defined.

(** ** The end of the array *)

Lemma makeMove_in_bounds fuel : ∀ sq st,
  isU64 (visitedSqs st) → onBoard sq → Z.testbit (visitedSqs st) sq = false →
  (length (legalMoves (setBit (visitedSqs st) sq) sq) < 8)%nat →
  makeMove fuel sq st ≠ PastTheEnd.
Proof.
  induction fuel as [| fuel IH]; intros sq st Hu Hsq Hbit Hfew; [done |].
  unfold makeMove.
  change (makeMoveWith ?f (S ?k) sq st)
    with (makeMoveBody f (makeMoveWith f k) sq st).
  unfold makeMoveBody.
  destruct (fullBoard (enter sq st)); [done |].
  destruct (_ =? noSq); [done |].
  intros Hbad.
  destruct (tryMoves_good (makeMove fuel) sq
              (visitedSqs (enter sq st)) (stackSq (enter sq st)))
    with (bad := PastTheEnd) (ms := genList (visitedSqs (enter sq st)) sq)
         (st := enter sq st) as [_ Hall]; try done.
  - intros d st1 st1' Hv Hs Hd Hdbit. rewrite <- Hv, <- Hs.
    apply makeMove_frame; [| done |]; rewrite Hv; [by apply isU64_setBit | done].
  - intros d st1 Hv Hs Hd Hdbit Hk. apply IH; rewrite ?Hv; try done.
    + by apply isU64_setBit.
    + cbn [enter visitedSqs].
      eapply Nat.lt_le_trans; [| apply (Forall_forall (λ sq, (length (knightMoves sq) ≤ 8)%nat) squares);
        [apply knightMoves_table | by apply onBoard_squares]].
      unfold legalMoves. apply (length_filter_lt _ _ sq).
      * unfold knightMoves. apply list_elem_of_filter.
        split; [by rewrite knightMove_sym | by apply onBoard_squares].
      * rewrite !testbit_setBit by done.
        rewrite (bool_decide_eq_true_2 (sq = sq)) by done.
        rewrite orb_true_r. cbn. done.
  - intros m Hm Hne. by apply genList_moves.
  - destruct (genList_spec (visitedSqs (enter sq st)) sq Hsq)
      as (cands & Hrun & _ & Hperm).
    cbn [enter visitedSqs] in *.
    assert (Hlen : (length cands < 8)%nat).
    { by rewrite Hperm, length_fmap. }
    apply (Hall sentinel); [| done].
    rewrite Hrun. apply elem_of_app. right.
    apply elem_of_replicate. split; [done | lia].
Qed.

(** X9: a call of [makeMove] on an unvisited board square does not
    read past the end of the array [moves], provided the square has
    fewer than eight knight destinations or one of its neighbours is
    visited, as it is in every call but the first one. *)
Theorem no_read_past_the_end (fuel : nat) (sq : Z) (st : Backtrack) :
  isU64 (visitedSqs st) → onBoard sq → Z.testbit (visitedSqs st) sq = false →
  (length (knightMoves sq) < 8)%nat ∨
  (∃ y, knightMove sq y = true ∧ Z.testbit (visitedSqs st) y = true) →
  makeMove fuel sq st ≠ PastTheEnd.
Proof.
  intros Hu Hsq Hbit Hfew. apply makeMove_in_bounds; try done.
  unfold legalMoves. destruct Hfew as [Hfew | (y & Hk & Hy)].
  - eapply Nat.le_lt_trans; [apply length_filter | done].
  - eapply Nat.lt_le_trans;
      [| apply (Forall_forall (λ sq, (length (knightMoves sq) ≤ 8)%nat) squares);
         [apply knightMoves_table | by apply onBoard_squares]].
    apply (length_filter_lt _ _ y).
    + unfold knightMoves. apply list_elem_of_filter. split; [done |].
      apply onBoard_squares. by apply knightMove_onBoard in Hk as [_ ?].
    + rewrite testbit_setBit, Hy by done. done.
Qed.

Lemma no_read_past_the_end_witness : makeMove 64 0 init ≠ PastTheEnd.
Proof.
  apply (no_read_past_the_end 64 0 init); [by vm_compute | by vm_compute | done |].
  left. apply (bool_decide_unpack _). by vm_compute.
Defined.

End KnightMore.

(** * More about the river crossing *)

Module RiverMore.
Import River RiverFacts.

(** ** The move list, whatever the state *)

(** The loop bound [min(cap, n) + 1] only matters up to [cap + 1]. *)
Lemma seqZ_bound cap n :
  0 <= cap →
  seqZ 0 (Z.min cap n + 1) = seqZ 0 (Z.min cap (Z.max (-1) n) + 1).
Proof.
  intros Hcap. destruct (Z.le_gt_cases (-1) n) as [Hn | Hn].
  - by rewrite (Z.max_r _ _ Hn).
  - rewrite !seqZ_nil; [done | lia | lia].
Qed.

#[local] Instance moveOrder_dec a b : Decision (moveOrder a b).
Proof. unfold moveOrder. apply _. Defined.

Lemma createMoveList_cases s :
  NoDup (createMoveList s) ∧
  (length (createMoveList s) ≤ Z.to_nat MAX_MOVES)%nat ∧
  StronglySorted moveOrder (createMoveList s).
Proof.
  unfold createMoveList, BOAT_CAPACITY.
  set (cannibals := if boatSide_ s =? LEFT then leftCannibals_ s else _).
  set (explorers := if boatSide_ s =? LEFT then leftExplorers_ s else _).
  clearbody cannibals explorers. clear s.
  assert (Hc : Z.min 2 cannibals + 1 <= 0 ∨ Z.min 2 cannibals = 0 ∨
               Z.min 2 cannibals = 1 ∨ Z.min 2 cannibals = 2) by lia.
  assert (He : explorers < 0 ∨ explorers = 0 ∨ explorers = 1 ∨ 2 <= explorers) by lia.
  destruct Hc as [Hc | [-> | [-> | ->]]];
    [rewrite seqZ_nil by done
    | change (seqZ 0 (0 + 1)) with [0]
    | change (seqZ 0 (1 + 1)) with [0; 1]
    | change (seqZ 0 (2 + 1)) with [0; 1; 2]];
    cbn [mbind list_bind app];
    change (2 - 0) with 2; change (2 - 1) with 1; change (2 - 2) with 0;
    destruct He as [He | [-> | [-> | He]]];
    rewrite ?(Z.min_r _ explorers) by lia;
    rewrite ?(Z.min_l _ explorers) by lia;
    rewrite ?(seqZ_nil _ (explorers + 1)) by lia;
    (split; [apply (bool_decide_unpack _); by vm_compute |
     split; [apply (bool_decide_unpack _); by vm_compute |
             apply (bool_decide_unpack _); by vm_compute]]).
Qed.

(** X10: in every state, whatever its counts, [createMoveList] lists
    exactly the legal moves, each once, and never more than
    [MAX_MOVES] of them, the room that [reserve] has made. *)
Theorem createMoveList_legal (s : State) :
  (∀ m, m ∈ createMoveList s ↔ legalMove s m) ∧
  NoDup (createMoveList s) ∧
  (length (createMoveList s) ≤ Z.to_nat MAX_MOVES)%nat.
Proof.
  destruct (createMoveList_cases s) as (Hnd & Hlen & _).
  split; [intros m; apply createMoveList_spec | done].
Qed.

(** X11: [createMoveList] lists the moves in ascending order of
    cannibals and, among equal numbers of cannibals, of explorers. *)
Theorem createMoveList_order (s : State) :
  StronglySorted moveOrder (createMoveList s).
Proof. apply createMoveList_cases. Qed.

(** ** The order of the visited set *)

Lemma State_lt_spec a b :
  State_lt a b = true ↔
  leftCannibals_ a < leftCannibals_ b ∨
  leftCannibals_ a = leftCannibals_ b ∧
  (leftExplorers_ a < leftExplorers_ b ∨
   leftExplorers_ a = leftExplorers_ b ∧
   (rightCannibals_ a < rightCannibals_ b ∨
    rightCannibals_ a = rightCannibals_ b ∧
    (rightExplorers_ a < rightExplorers_ b ∨
     rightExplorers_ a = rightExplorers_ b ∧ boatSide_ a < boatSide_ b))).
Proof.
  unfold State_lt.
  rewrite !orb_true_iff, !andb_true_iff, !orb_true_iff, !andb_true_iff,
    !orb_true_iff, !andb_true_iff, !orb_true_iff, !andb_true_iff, !Z.ltb_lt, !Z.eqb_eq.
  reflexivity.
Qed.

(** X12: [operator<] is a strict total order on states: irreflexive,
    transitive, and two states are unordered exactly when they are
    equal, so that the visited set holds a state at most once and
    [emplace] fails exactly on a state already in it. *)
Theorem State_lt_strict_total (a b c : State) :
  State_lt a a = false ∧
  (State_lt a b = true → State_lt b c = true → State_lt a c = true) ∧
  (State_lt a b = false ∧ State_lt b a = false ↔ a = b).
Proof.
  split; [| split].
  - apply not_true_iff_false. rewrite State_lt_spec. lia.
  - rewrite !State_lt_spec. lia.
  - rewrite <- !not_true_iff_false, !State_lt_spec. split.
    + intros [Hab Hba]. destruct a, b; cbn in *. f_equal; lia.
    + intros ->. lia.
Qed.

(** ** What a returning call has done *)

Lemma backtrack_returns fuel sol sol' :
  withinTotals (currentState_ sol) → backtrack fuel sol = Some sol' →
  restores sol sol' ∧
  (isValid (currentState_ sol) = true → currentState_ sol ∈ visitedStates sol').
Proof.
  intros Hin Hrun.
  destruct (backtrack_total (unvisited (visitedStates sol)) sol Hin)
    as (sol'' & Hrun' & Hr & Hv); [lia |].
  by rewrite (backtrack_deterministic _ _ _ _ _ Hrun Hrun').
Qed.

Lemma replay_snoc s ms m : replay s (ms ++ [m]) = applyMove m (replay s ms).
Proof. unfold replay. by rewrite fold_left_app. Qed.

Lemma legalPath_snoc ms : ∀ s m,
  legalPath s ms → legalMove (replay s ms) m →
  isValid (applyMove m (replay s ms)) = true → legalPath s (ms ++ [m]).
Proof.
  induction ms as [| m' ms IH]; intros s m Hp Hm Hv; cbn in *; [done |].
  destruct Hp as (? & ? & ?). split; [done |]. split; [done |]. by apply IH.
Qed.

(** ** The solution recorded *)

Section Record.
Variable call : Solution → option Solution.
Variable cur : State.
Variable prev : list Move.
Hypothesis cur_in : withinTotals cur.
Hypothesis prev_path : legalPath initialState prev.
Hypothesis prev_cur : replay initialState prev = cur.
Hypothesis call_returns : ∀ sol r,
  withinTotals (currentState_ sol) → call sol = Some r → restores sol r.
Hypothesis call_improves : ∀ sol r,
  withinTotals (currentState_ sol) → history sol → call sol = Some r →
  improves sol r.

Lemma forMoves_improves ms : ∀ sol sol',
  currentState_ sol = cur → previousMoves sol = prev →
  (∀ m, m ∈ ms → m ∈ createMoveList cur) →
  forMoves call ms sol = Some sol' →
  solutionMoves sol' = solutionMoves sol ∨
  (genuine (solutionMoves sol') ∧
   (solutionMoves sol = [] ∨
    (length (solutionMoves sol') < length (solutionMoves sol))%nat) ∧
   ∃ m ext, solutionMoves sol' = prev ++ m :: ext).
Proof.
  induction ms as [| m ms IH]; intros sol sol' Hc Hp Hms; cbn [forMoves].
  { intros [= <-]. by left. }
  destruct (call (descend m sol)) as [sol1 |] eqn:Hcall; [| done].
  assert (Hm : m ∈ createMoveList cur) by (apply Hms, elem_of_cons; by left).
  assert (Hin1 : withinTotals (currentState_ (descend m sol)))
    by (cbn [descend currentState_]; rewrite Hc; by apply withinTotals_applyMove).
  pose proof (call_returns _ _ Hin1 Hcall) as Hr1.
  assert (Hh1 : history (descend m sol)).
  { unfold history. cbn [descend currentState_ previousMoves].
    rewrite Hc, Hp, replay_snoc, prev_cur. split; [done |].
    intros Hv. apply legalPath_snoc; rewrite ?prev_cur; try done.
    by apply createMoveList_spec. }
  pose proof (call_improves _ _ Hin1 Hh1 Hcall) as Himp1.
  assert (Hr : restores sol (ascend m sol1))
    by (apply ascend_descend; [rewrite Hc; by apply withinTotals_ok | done]).
  destruct Hr as (Hc' & Hp' & _).
  intros Hrun. apply IH in Hrun; [| congruence | congruence |
    intros m' Hm'; apply Hms, elem_of_cons; by right].
  cbn [ascend solutionMoves] in Hrun.
  unfold improves in Himp1. cbn [descend solutionMoves previousMoves] in Himp1.
  rewrite Hp in Himp1.
  destruct Himp1 as [E1 | (Hg1 & Hs1 & ext1 & E1)].
  - rewrite E1 in Hrun. exact Hrun.
  - rewrite <- app_assoc in E1. cbn [app] in E1.
    destruct Hrun as [E2 | (Hg2 & Hs2 & m2 & ext2 & E2)].
    + right. rewrite E2. split; [done |]. split; [done |]. by exists m, ext1.
    + right. split; [done |]. split; [| by exists m2, ext2].
      destruct Hs2 as [E3 | Hlt]; [rewrite E3 in E1; by destruct prev |].
      destruct Hs1 as [? | ?]; [by left | right; lia].
Qed.
End Record.

Lemma backtrack_improves fuel : ∀ sol sol',
  withinTotals (currentState_ sol) → history sol →
  backtrack fuel sol = Some sol' → improves sol sol'.
Proof.
  induction fuel as [| fuel IH]; intros sol sol' Hin [Hreplay Hpath]; [done |].
  change (backtrack (S fuel) sol) with (backtrackBody (backtrack fuel) sol).
  unfold backtrackBody, emplace.
  destruct (isValid (currentState_ sol)) eqn:Hvalid; cbn [negb];
    [| intros [= <-]; by left].
  destruct (decide (currentState_ sol ∈ visitedStates sol)); cbn [negb];
    [intros [= <-]; by left |].
  cbn [currentState_ previousMoves visitedStates solutionMoves].
  destruct (isSuccess (currentState_ sol)) eqn:Hgoal.
  { destruct (_ || _) eqn:Hbetter; intros [= <-]; [| by left].
    right. cbn. split; [split; [by apply Hpath | by rewrite Hreplay] |].
    split; [| exists []; by rewrite app_nil_r].
    apply orb_true_iff in Hbetter as [H | H]; [left | right];
      by apply bool_decide_eq_true in H. }
  intros Hrun.
  eapply (forMoves_improves (backtrack fuel) (currentState_ sol) (previousMoves sol))
    in Hrun; try done.
  - cbn in Hrun. destruct Hrun as [? | (? & ? & m & ext & ?)]; [by left |].
    right. split; [done |]. split; [done |]. by exists (m :: ext).
  - by apply Hpath.
  - intros sol1 r Hin1 Hrun1. by apply (backtrack_returns fuel).
Qed.


Lemma history_new : history newSolution.
Proof. split; [done |]. intros _. exact I. Qed.


(** X14: such a call replaces [solutionMoves] only when there was no
    solution or by a strictly shorter one, and the new solution starts
    with the move history of the call. *)
Theorem solution_only_improves (fuel : nat) (sol sol' : Solution) :
  withinTotals (currentState_ sol) → history sol →
  backtrack fuel sol = Some sol' →
  solutionMoves sol' = solutionMoves sol ∨
  ((solutionMoves sol = [] ∨
    (length (solutionMoves sol') < length (solutionMoves sol))%nat) ∧
   ∃ ext, solutionMoves sol' = previousMoves sol ++ ext).
Proof.
  intros Hin Hh Hrun.
  destruct (backtrack_improves fuel sol sol' Hin Hh Hrun) as [? | (_ & ? & ?)];
    [by left | by right].
Qed.

Lemma solution_only_improves_witness :
  solutionMoves solver = solutionMoves newSolution ∨
  ((solutionMoves newSolution = [] ∨
    (length (solutionMoves solver) < length (solutionMoves newSolution))%nat) ∧
   ∃ ext, solutionMoves solver = previousMoves newSolution ++ ext).
Proof.
  apply (solution_only_improves 33 newSolution solver).
  - exact withinTotals_initial.
  - exact history_new.
  - exact solver_run.
Defined.

(** ** The states explored *)

Lemma expanded_refl (V : gset State) : expanded V V.
Proof. intros s Hs Hs'. done. Qed.

Lemma expanded_trans (V0 V1 V2 : gset State) :
  V1 ⊆ V2 → expanded V0 V1 → expanded V1 V2 → expanded V0 V2.
Proof.
  intros H12 E01 E12 s Hs Hs0 Hgoal t Ht.
  destruct (decide (s ∈ V1)) as [Hs1 | Hs1].
  - apply H12. by apply (E01 s).
  - by apply (E12 s).
Qed.

Lemma sound_trans (V0 V1 V2 : gset State) : sound V0 V1 → sound V1 V2 → sound V0 V2.
Proof.
  intros S01 S12 s Hs. destruct (S12 s Hs) as [Hs1 | ?]; [by apply S01 | by right].
Qed.

Section Explore.
Variable call : Solution → option Solution.
Variable cur : State.
Hypothesis cur_in : withinTotals cur.
Hypothesis call_returns : ∀ sol r,
  withinTotals (currentState_ sol) → call sol = Some r →
  restores sol r ∧
  (isValid (currentState_ sol) = true → currentState_ sol ∈ visitedStates r).
Hypothesis call_explores : ∀ sol r,
  withinTotals (currentState_ sol) → call sol = Some r →
  expanded (visitedStates sol) (visitedStates r) ∧
  sound (visitedStates sol) (visitedStates r).

Lemma forMoves_explores ms : ∀ sol sol',
  currentState_ sol = cur →
  (∀ m, m ∈ ms → m ∈ createMoveList cur) →
  forMoves call ms sol = Some sol' →
  visitedStates sol ⊆ visitedStates sol' ∧
  expanded (visitedStates sol) (visitedStates sol') ∧
  sound (visitedStates sol) (visitedStates sol') ∧
  ∀ m, m ∈ ms → isValid (applyMove m cur) = true →
       applyMove m cur ∈ visitedStates sol'.
Proof.
  induction ms as [| m ms IH]; intros sol sol' Hc Hms; cbn [forMoves].
  { intros [= <-]. split; [done |]. split; [apply expanded_refl |].
    split; [by left |]. by intros m ?%elem_of_nil. }
  destruct (call (descend m sol)) as [sol1 |] eqn:Hcall; [| done].
  assert (Hm : m ∈ createMoveList cur) by (apply Hms, elem_of_cons; by left).
  assert (Hin1 : withinTotals (currentState_ (descend m sol)))
    by (cbn [descend currentState_]; rewrite Hc; by apply withinTotals_applyMove).
  destruct (call_returns _ _ Hin1 Hcall) as [Hr1 Hv1].
  destruct (call_explores _ _ Hin1 Hcall) as [He1 Hs1].
  assert (Hr : restores sol (ascend m sol1))
    by (apply ascend_descend; [rewrite Hc; by apply withinTotals_ok | done]).
  destruct Hr as (Hc' & _ & Hsub1). cbn [ascend visitedStates] in Hsub1.
  cbn [descend visitedStates currentState_] in He1, Hs1, Hv1. rewrite Hc in Hv1.
  intros Hrun. apply IH in Hrun as (Hsub & He & Hs & Hall);
    [| congruence | intros m' Hm'; apply Hms, elem_of_cons; by right].
  cbn [ascend visitedStates] in Hsub, He, Hs.
  split; [by etrans |]. split; [by eapply expanded_trans |].
  split; [by eapply sound_trans |].
  intros m' [-> | Hm']%elem_of_cons Hv; [| by apply Hall].
  by apply Hsub, Hv1.
Qed.
End Explore.

Lemma backtrack_explores fuel : ∀ sol sol',
  withinTotals (currentState_ sol) → backtrack fuel sol = Some sol' →
  expanded (visitedStates sol) (visitedStates sol') ∧
  sound (visitedStates sol) (visitedStates sol').
Proof.
  induction fuel as [| fuel IH]; intros sol sol' Hin; [done |].
  change (backtrack (S fuel) sol) with (backtrackBody (backtrack fuel) sol).
  unfold backtrackBody, emplace.
  destruct (isValid (currentState_ sol)) eqn:Hvalid; cbn [negb];
    [| intros [= <-]; split; [apply expanded_refl | by left]].
  destruct (decide (currentState_ sol ∈ visitedStates sol)) as [| Hnew]; cbn [negb];
    [intros [= <-]; split; [apply expanded_refl | by left] |].
  cbn [currentState_ previousMoves visitedStates solutionMoves].
  assert (Hone : sound (visitedStates sol) ({[currentState_ sol]} ∪ visitedStates sol)).
  { intros s [->%elem_of_singleton | Hs]%elem_of_union; [by right | by left]. }
  destruct (isSuccess (currentState_ sol)) eqn:Hgoal.
  { assert (expanded (visitedStates sol) ({[currentState_ sol]} ∪ visitedStates sol)).
    { intros s [->%elem_of_singleton | Hs]%elem_of_union Hs0 Hg; [congruence | done]. }
    destruct (_ || _); intros [= <-]; by cbn. }
  intros Hrun.
  eapply (forMoves_explores (backtrack fuel) (currentState_ sol)) in Hrun;
    [| done | intros; by apply (backtrack_returns fuel) | by apply IH | done | done].
  cbn [visitedStates] in Hrun. destruct Hrun as (Hsub & He & Hs & Hall).
  split; [| by eapply sound_trans].
  intros s Hs' Hs0 Hg t Ht.
  destruct (decide (s = currentState_ sol)) as [-> | Hne].
  - unfold successors in Ht. apply list_elem_of_filter in Ht as [Hv Ht].
    apply list_elem_of_fmap in Ht as (m & -> & Hm). by apply Hall.
  - apply (He s); try done.
    intros [?%elem_of_singleton | ?]%elem_of_union; done.
Qed.

(** X15: every state that a call of [backtrack] adds to the visited set
    is valid and has its counts within the totals. *)
Theorem visited_states_valid (fuel : nat) (sol sol' : Solution) :
  withinTotals (currentState_ sol) → backtrack fuel sol = Some sol' →
  ∀ s, s ∈ visitedStates sol' →
       s ∈ visitedStates sol ∨ (isValid s = true ∧ withinTotals s).
Proof. intros Hin Hrun. by apply (backtrack_explores fuel sol sol'). Qed.

Lemma visited_states_valid_witness :
  initialState ∈ visitedStates newSolution ∨
  (isValid initialState = true ∧ withinTotals initialState).
Proof.
  apply (visited_states_valid 33 newSolution solver withinTotals_initial
           solver_run initialState).
  apply (bool_decide_unpack _). by vm_compute.
Defined.

(** X16: the search is exhaustive: started in a valid state with an
    empty visited set, a returning call has visited every state that a
    path of legal moves through valid states reaches from the current
    state without passing through a success state on the way. *)
Theorem search_exhaustive (fuel : nat) (sol sol' : Solution) (ms : list Move) :
  withinTotals (currentState_ sol) → isValid (currentState_ sol) = true →
  visitedStates sol = ∅ → backtrack fuel sol = Some sol' →
  legalPath (currentState_ sol) ms →
  (∀ k, (k < length ms)%nat →
        isSuccess (replay (currentState_ sol) (take k ms)) = false) →
  replay (currentState_ sol) ms ∈ visitedStates sol'.
Proof.
  intros Hin Hvalid Hempty Hrun.
  destruct (backtrack_returns fuel sol sol' Hin Hrun) as [_ Hstart].
  destruct (backtrack_explores fuel sol sol' Hin Hrun) as [Hexp _].
  rewrite Hempty in Hexp.
  induction ms as [| m ms IH] using rev_ind; intros Hpath Hgoal.
  { by apply Hstart. }
  rewrite replay_snoc.
  assert (Hpre : legalPath (currentState_ sol) ms ∧
                 legalMove (replay (currentState_ sol) ms) m ∧
                 isValid (applyMove m (replay (currentState_ sol) ms)) = true).
  { clear -Hpath. revert Hpath. generalize (currentState_ sol).
    induction ms as [| m' ms IH]; intros s; cbn.
    - tauto.
    - intros (? & ? & Hp). apply IH in Hp. tauto. }
  destruct Hpre as (Hp & Hm & Hv).
  rewrite length_app in Hgoal. cbn [length] in Hgoal.
  apply (Hexp (replay (currentState_ sol) ms)).
  - apply IH; [done |]. intros k Hk.
    specialize (Hgoal k ltac:(lia)). by rewrite take_app_le in Hgoal by lia.
  - apply not_elem_of_empty.
  - specialize (Hgoal (length ms) ltac:(lia)).
    by rewrite take_app_length in Hgoal.
  - by apply successors_spec.
Qed.

Lemma search_exhaustive_witness :
  replay initialState [mkMove 1 1; mkMove 0 1] ∈ visitedStates solver.
Proof.
  apply (search_exhaustive 33 newSolution solver [mkMove 1 1; mkMove 0 1]).
  - exact withinTotals_initial.
  - reflexivity.
  - reflexivity.
  - exact solver_run.
  - cbn [legalPath]. repeat split; by vm_compute.
  - intros k Hk. cbn [length] in Hk.
    destruct k as [| [| k]]; [reflexivity | reflexivity | lia].
Defined.

(** X17: for a state within the totals [printShore] writes exactly
    [SHORE_SIZE] characters, for either shore. *)
Theorem printShore_width (shore : Z) (s : State) :
  withinTotals s → length (printShore shore s) = Z.to_nat SHORE_SIZE.
Proof.
  unfold withinTotals, printShore, TOTAL_CANNIBALS, TOTAL_EXPLORERS, SHORE_SIZE.
  intros (Hlc & Hrc & Hle & Hre & _).
  set (c := if shore =? LEFT then leftCannibals_ s else _).
  set (e := if shore =? LEFT then leftExplorers_ s else _).
  assert (0 <= c <= 3) by (unfold c; destruct (shore =? LEFT); lia).
  assert (0 <= e <= 3) by (unfold e; destruct (shore =? LEFT); lia).
  unfold int_sub, int_add.
  rewrite (wrap_int_id (c + e)) by (unfold int_range, int_min, int_max; lia).
  rewrite (wrap_int_id (6 - (c + e))) by (unfold int_range, int_min, int_max; lia).
  rewrite !length_app, !length_replicate. lia.
Qed.

Lemma printShore_width_witness :
  length (printShore RIGHT initialState) = Z.to_nat SHORE_SIZE.
Proof. apply (printShore_width RIGHT initialState). exact withinTotals_initial. Defined.

End RiverMore.
